(** * reactive-js: the [Component] base class

    A shallow embedding of [src/reactive.js].  JavaScript objects live in a
    heap indexed by references, so that the aliasing of the child array
    ([this._children = children]), its in-place mutation ([push], [splice],
    indexed assignment) and the assignment [component.parent = this] are
    modelled on a shared store.  The overridable methods of the class
    ([shouldComponentUpdate], [componentWillUpdate], [render],
    [componentDidUpdate]) and the completion callback of [setState] are
    external collaborators: every invocation is recorded in a trace together
    with the state the receiver holds at that moment. *)

From Stdlib Require Import ZArith String List Lia.
From stdpp Require Import base option strings list gmap fin_maps.

Open Scope string_scope.
Open Scope list_scope.
Open Scope Z_scope.
Open Scope stdpp_scope.

(** ** JavaScript values *)

Definition loc := nat.

(** Numbers are restricted to integers: the program never computes with
    them, they only occur as possible keys and arguments. *)
Inductive value : Type :=
  | VUndefined
  | VNull
  | VBool (b : bool)
  | VNumber (n : Z)
  | VString (s : string)
  | VObject (l : loc).

#[global] Instance value_eq_dec : EqDecision value.
Proof. solve_decision. Defined.

(** [ToBoolean]: what [if (v)], [!v] and [v && ...] test. *)
Definition truthy (v : value) : bool :=
  match v with
  | VUndefined | VNull => false
  | VBool b => b
  | VNumber n => negb (n =? 0)
  | VString s => negb (String.eqb s EmptyString)
  | VObject _ => true
  end.

(** The [===] operator. Objects are compared by reference. *)
Definition strict_eq (a b : value) : bool := bool_decide (a = b).

(** The [typeof] operator. *)
Definition typeof (v : value) : string :=
  match v with
  | VUndefined => "undefined"
  | VNull => "object"
  | VBool _ => "boolean"
  | VNumber _ => "number"
  | VString _ => "string"
  | VObject _ => "object"
  end.

(** Plain objects used as mappings ([props] and [state]); the program never
    mutates one in place, so they are held by value. *)
Abbreviation JSObject := (gmap string value).
Abbreviation Props := (gmap string value).
Abbreviation State := (gmap string value).

(** [Object.assign(target, source)]: the own properties of [source]
    override those of [target]; a [null] or [undefined] source is skipped. *)
Definition object_assign (target : JSObject) (source : option JSObject) : JSObject :=
  match source with
  | Some s => s ∪ target
  | None => target
  end.
Arguments object_assign : simpl never.

(** ** Classes and instances *)

(** What a method body can read from its receiver without the heap. *)
Record Receiver : Type := mkReceiver {
  this_key : value;
  this_props : Props;
  this_state : State
}.

(** A class derived from [Component]: the gate it installs and whether it
    supplies [render].  [componentWillUpdate] and [componentDidUpdate] are
    hooks whose bodies lie outside the class [Component]. *)
Record ClassDef : Type := mkClass {
  shouldComponentUpdate : Receiver -> Props -> State -> bool;
  render_defined : bool
}.

(** The class [Component] itself: the gate returns [true] and there is no
    [render] method. *)
Definition Component_class : ClassDef :=
  {| shouldComponentUpdate := fun _ _ _ => true;
     render_defined := false |}.

Record Component : Type := mkComponent {
  _class : ClassDef;
  _key : value;
  _props : Props;
  _state : State;
  _children : value;
  _parent : value
}.

Inductive obj : Type :=
  | OComponent (c : Component)
  | OArray (elems : list value).

Abbreviation heap := (gmap loc obj).

(** ** Calls to external collaborators *)

Definition callback := nat.

Inductive call : Type :=
  | ShouldComponentUpdate (nextProps : Props) (nextState : State)
  | ComponentWillUpdate (nextProps : Props) (nextState : State)
  | Render (forced : bool)
  | ComponentDidUpdate (prevProps : Props) (prevState : State)
  | Callback (cb : callback) (prevState : State) (currentProps : Props).

(** An invocation on receiver [ev_this]; [ev_state] is [this._state] at the
    moment of the call. *)
Record event : Type := mkEvent {
  ev_this : loc;
  ev_call : call;
  ev_state : State
}.

Record world : Type := mkWorld {
  w_heap : heap;
  w_trace : list event
}.

(** ** Computations: state and exceptions *)

Inductive error : Type :=
  | TypeError
  | OutOfFuel.

(** A thrown exception keeps the world as it was when thrown: JavaScript
    does not roll anything back. *)
Inductive outcome (A : Type) : Type :=
  | Return (a : A) (w : world)
  | Throw (e : error) (w : world).
Arguments Return {A} a w.
Arguments Throw {A} e w.

Definition M (A : Type) : Type := world -> outcome A.

Definition ret {A} (a : A) : M A := fun w => Return a w.

Definition bind {A B} (m : M A) (k : A -> M B) : M B :=
  fun w => match m w with
           | Return a w' => k a w'
           | Throw e w' => Throw e w'
           end.

Definition throw {A} (e : error) : M A := fun w => Throw e w.

Notation "x <- m ;; k" := (bind m (fun x => k))
  (at level 20, m at level 99, k at level 200, only parsing).
Notation "m ;; k" := (bind m (fun _ => k))
  (at level 100, k at level 200, right associativity, only parsing).

Definition final_world {A} (o : outcome A) : world :=
  match o with
  | Return _ w => w
  | Throw _ w => w
  end.

Definition get_heap : M heap := fun w => Return (w_heap w) w.

Definition put_heap (h : heap) : M unit :=
  fun w => Return tt {| w_heap := h; w_trace := w_trace w |}.

(** Allocation of a new object at an unused reference. *)
Definition alloc (o : obj) : M loc :=
  fun w =>
    let l := fresh (dom (w_heap w)) in
    Return l {| w_heap := <[l := o]> (w_heap w); w_trace := w_trace w |}.

(** Dereferencing [this]. *)
Definition get_component (this : loc) : M Component :=
  h <- get_heap ;;
  match h !! this with
  | Some (OComponent c) => ret c
  | _ => throw TypeError
  end.

Definition set_component (this : loc) (c : Component) : M unit :=
  h <- get_heap ;; put_heap (<[this := OComponent c]> h).

(** Reading an array through a value; calling an array method on anything
    else is a [TypeError]. *)
Definition get_array (v : value) : M (loc * list value) :=
  h <- get_heap ;;
  match v with
  | VObject a =>
      match h !! a with
      | Some (OArray l) => ret (a, l)
      | _ => throw TypeError
      end
  | _ => throw TypeError
  end.

Definition set_array (a : loc) (l : list value) : M unit :=
  h <- get_heap ;; put_heap (<[a := OArray l]> h).

(** Recording an invocation on [this]. *)
Definition emit (this : loc) (c : call) : M unit :=
  fun w =>
    let st := match w_heap w !! this with
              | Some (OComponent o) => _state o
              | _ => ∅
              end in
    Return tt {| w_heap := w_heap w;
                 w_trace := w_trace w ++ [mkEvent this c st] |}.

(** ** Accessors *)

(** [v.key] for a truthy [v]: the getter [get key()] of a component; an
    array or a primitive has no such property and yields [undefined]. *)
Definition key_of (h : heap) (v : value) : value :=
  match v with
  | VObject l =>
      match h !! l with
      | Some (OComponent c) => _key c
      | _ => VUndefined
      end
  | _ => VUndefined
  end.

Definition with_parent (c : Component) (p : value) : Component :=
  {| _class := _class c; _key := _key c; _props := _props c;
     _state := _state c; _children := _children c; _parent := p |}.

Definition with_children (c : Component) (ch : value) : Component :=
  {| _class := _class c; _key := _key c; _props := _props c;
     _state := _state c; _children := ch; _parent := _parent c |}.

Definition with_state (c : Component) (s : State) : Component :=
  {| _class := _class c; _key := _key c; _props := _props c;
     _state := s; _children := _children c; _parent := _parent c |}.

(** [target.parent = p] for a truthy [target]: on a component it runs the
    setter [set parent].  The class body is strict code, so the assignment
    on a primitive throws.  On an array it creates a property that nothing
    in this program reads. *)
Definition assign_parent (target : value) (p : value) : M unit :=
  match target with
  | VObject l =>
      h <- get_heap ;;
      match h !! l with
      | Some (OComponent c) => set_component l (with_parent c p)
      | _ => ret tt
      end
  | _ => throw TypeError
  end.

(** [Array.prototype.findIndex]: the first index whose element satisfies
    the predicate, [-1] if there is none. *)
Fixpoint findIndex_from (p : value -> bool) (l : list value) (i : Z) : Z :=
  match l with
  | [] => -1
  | x :: l' => if p x then i else findIndex_from p l' (i + 1)
  end.

Definition findIndex (p : value -> bool) (l : list value) : Z :=
  findIndex_from p l 0.

(** [arr.splice(i, 1)] for [0 <= i]. *)
Definition splice1 (i : Z) (l : list value) : list value :=
  delete (Z.to_nat i) l.

(** ** The class [Component] *)

(** Reading a field [this.f]. *)
Definition read {A} (f : Component -> A) (this : loc) : M A :=
  c <- get_component this ;; ret (f c).

(** The object [new] hands to the constructor, before any field is set. *)
Definition blank (cls : ClassDef) : Component :=
  {| _class := cls; _key := VUndefined; _props := ∅; _state := ∅;
     _children := VUndefined; _parent := VUndefined |}.

(** [new C(key, props, children)] for a class [C] that inherits the
    constructor.  A default applies only to an [undefined] argument; a
    given array is stored as it is, not copied. *)
Definition new_Component (cls : ClassDef) (key : value) (props : option Props)
    (children : value) : M loc :=
  this <- alloc (OComponent (blank cls)) ;;
  let key := match key with VUndefined => VString EmptyString | _ => key end in
  let props := match props with None => ∅ | Some p => p end in
  children <- match children with
              | VUndefined => a <- alloc (OArray []) ;; ret (VObject a)
              | _ => ret children
              end ;;
  set_component this
    {| _class := cls; _key := key; _props := props; _state := ∅;
       _children := children; _parent := VUndefined |} ;;
  ret this.

(** *** Updating *)

Definition receiver (c : Component) : Receiver :=
  mkReceiver (_key c) (_props c) (_state c).

Definition call_shouldComponentUpdate (this : loc) (nextProps : Props)
    (nextState : State) : M bool :=
  c <- get_component this ;;
  emit this (ShouldComponentUpdate nextProps nextState) ;;
  ret (shouldComponentUpdate (_class c) (receiver c) nextProps nextState).

Definition call_componentWillUpdate (this : loc) (nextProps : Props)
    (nextState : State) : M unit :=
  emit this (ComponentWillUpdate nextProps nextState).

Definition call_componentDidUpdate (this : loc) (prevProps : Props)
    (prevState : State) : M unit :=
  emit this (ComponentDidUpdate prevProps prevState).

(** [this.render(forced)]: calling a method the class does not have is a
    [TypeError]. *)
Definition call_render (this : loc) (forced : bool) : M unit :=
  c <- get_component this ;;
  if render_defined (_class c) then emit this (Render forced)
  else throw TypeError.

Definition forceUpdate (this : loc) : M unit := call_render this true.

(** *** State *)

Definition write_state (this : loc) (s : State) : M unit :=
  c <- get_component this ;; set_component this (with_state c s).

Definition setState (this : loc) (nextState : option State)
    (cb : option callback) : M unit :=
  PREV_STATE <- read _state this ;;
  let NEW_STATE :=
    object_assign (object_assign ∅ (Some PREV_STATE)) nextState in
  update <- (props <- read _props this ;;
             call_shouldComponentUpdate this props NEW_STATE) ;;
  (if (update : bool) then
     (props <- read _props this ;;
      call_componentWillUpdate this props NEW_STATE) ;;
     call_render this true ;;
     (props <- read _props this ;;
      call_componentDidUpdate this props PREV_STATE)
   else ret tt) ;;
  write_state this NEW_STATE ;;
  match cb with
  | Some f => props <- read _props this ;;
              emit this (Callback f PREV_STATE props)
  | None => ret tt
  end.

(** *** Children *)

(** The callback both [findIndex] calls pass:
    [(el) => (el && el.key === component.key)]. *)
Definition same_key (h : heap) (component : value) (el : value) : bool :=
  truthy el && strict_eq (key_of h el) (key_of h component).

Definition addChild (this : loc) (component : value) : M unit :=
  if negb (truthy component) then ret tt
  else
    arr <- (ch <- read _children this ;; get_array ch) ;;
    h <- get_heap ;;
    let IDX := findIndex (same_key h component) (snd arr) in
    if IDX =? -1 then
      set_array (fst arr) (snd arr ++ [component]) ;;
      assign_parent component (VObject this)
    else
      set_array (fst arr) (<[Z.to_nat IDX := component]> (snd arr)).

(** [for (const CHILD of components) { this.addChild(CHILD); }] over an
    array: the iterator reads the array anew at every step.  [fuel] bounds
    the number of iterations. *)
Fixpoint addChildren_loop (fuel : nat) (this : loc) (components : value)
    (i : nat) : M unit :=
  match fuel with
  | O => throw OutOfFuel
  | S fuel' =>
      arr <- get_array components ;;
      match snd arr !! i with
      | None => ret tt
      | Some CHILD =>
          addChild this CHILD ;;
          addChildren_loop fuel' this components (S i)
      end
  end.

Definition addChildren (fuel : nat) (this : loc) (components : value) : M unit :=
  addChildren_loop fuel this components 0%nat.

(** [fuel] bounds the depth of the recursive calls. *)
Fixpoint removeChild (fuel : nat) (this : loc) (component : value) : M unit :=
  match fuel with
  | O => throw OutOfFuel
  | S fuel' =>
      if negb (truthy component) then ret tt
      else if String.eqb (typeof component) "string" then
        arr <- (ch <- read _children this ;; get_array ch) ;;
        h <- get_heap ;;
        let IDX := findIndex (same_key h component) (snd arr) in
        if negb (IDX =? -1) then set_array (fst arr) (splice1 IDX (snd arr))
        else ret tt
      else
        h <- get_heap ;;
        removeChild fuel' this (key_of h component)
  end.

Definition removeChildren (this : loc) : M unit :=
  a <- alloc (OArray []) ;;
  c <- get_component this ;;
  set_component this (with_children c (VObject a)).

(** *** Getters and setters *)

Definition get_props (this : loc) : M Props := read _props this.
Definition get_key (this : loc) : M value := read _key this.
Definition get_state (this : loc) : M State := read _state this.
Definition set_state (this : loc) (nextState : option State) : M unit :=
  setState this nextState None.
Definition get_children (this : loc) : M value := read _children this.
Definition get_parent (this : loc) : M value := read _parent this.
Definition set_parent (this : loc) (parent : value) : M unit :=
  c <- get_component this ;; set_component this (with_parent c parent).

(** * Vocabulary of the properties *)

(** ** The update protocol *)

(** What the spec calls the shallow merge of a state with a partial state. *)
Definition shallow_merge (st : State) (partial : option State) : State :=
  object_assign st partial.

(** The three invocations an allowed update makes between the gate and the
    commit, each seeing the previous state. *)
Definition update_events (this : loc) (props : Props) (PREV NEW : State)
    : list event :=
  [ mkEvent this (ComponentWillUpdate props NEW) PREV;
    mkEvent this (Render true) PREV;
    mkEvent this (ComponentDidUpdate props PREV) PREV ].

(** The invocation of the completion callback, which sees the new state. *)
Definition callback_events (this : loc) (cb : option callback) (props : Props)
    (PREV NEW : State) : list event :=
  match cb with
  | Some f => [ mkEvent this (Callback f PREV props) NEW ]
  | None => []
  end.

(** The invocation of the gate, which sees the previous state. *)
Definition gate_event (this : loc) (props : Props) (PREV NEW : State) : event :=
  mkEvent this (ShouldComponentUpdate props NEW) PREV.

(** The world in which [this] holds state [NEW] and [evs] have happened. *)
Definition commit (w : world) (this : loc) (c : Component) (NEW : State)
    (evs : list event) : world :=
  {| w_heap := <[this := OComponent (with_state c NEW)]> (w_heap w);
     w_trace := w_trace w ++ evs |}.

(** Calls that belong to the re-render of an update. *)
Definition is_update_call (c : call) : bool :=
  match c with
  | ComponentWillUpdate _ _ | Render _ | ComponentDidUpdate _ _ => true
  | ShouldComponentUpdate _ _ | Callback _ _ _ => false
  end.

(** A sequence of [setState] calls on one node. *)
Fixpoint setState_seq (this : loc)
    (calls : list (option State * option callback)) : M unit :=
  match calls with
  | [] => ret tt
  | (partial, cb) :: rest => setState this partial cb ;; setState_seq this rest
  end.

(** ** Sample classes and nodes *)

(** A class whose gate vetoes every update. *)
Definition veto_class : ClassDef :=
  {| shouldComponentUpdate := fun _ _ _ => false; render_defined := true |}.

(** A class with the default gate and a [render] method. *)
Definition view_class : ClassDef :=
  {| shouldComponentUpdate := fun _ _ _ => true; render_defined := true |}.

(** A class that re-renders only when the state key [x] is to change. *)
Definition lazy_class : ClassDef :=
  {| shouldComponentUpdate := fun this _ nextState =>
       negb (bool_decide (this_state this !! "x" = nextState !! "x"));
     render_defined := true |}.

(** A node of class [cls] holding state [st], alone in its heap. *)
Definition sample_node (cls : ClassDef) (st : State) : Component :=
  {| _class := cls; _key := VString "n"; _props := {[ "title" := VString "t" ]};
     _state := st; _children := VObject 1%nat; _parent := VUndefined |}.

Definition sample_world (cls : ClassDef) (st : State) : world :=
  {| w_heap := {[ 0%nat := OComponent (sample_node cls st);
                  1%nat := OArray [] ]};
     w_trace := [] |}.

(** ** Keys of children *)

(** A child with key [k]: what the callback of [findIndex] recognises. *)
Definition has_key (h : heap) (k : value) (el : value) : Prop :=
  truthy el = true /\ key_of h el = k.

(** The keys of the children in [l] are pairwise distinct. *)
Definition distinct_keys (h : heap) (l : list value) : Prop :=
  forall (i j : nat) x y,
    l !! i = Some x -> l !! j = Some y ->
    truthy x = true -> truthy y = true ->
    key_of h x = key_of h y -> i = j.

(** At most one child in [l] has key [k]. *)
Definition at_most_one (h : heap) (k : value) (l : list value) : Prop :=
  forall (i j : nat) x y,
    l !! i = Some x -> l !! j = Some y ->
    has_key h k x -> has_key h k y -> i = j.

(** Heaps that agree on every key. *)
Definition same_keys (h h' : heap) : Prop :=
  forall v, key_of h' v = key_of h v.

(** ** A sample family *)

Definition empty_world : world := {| w_heap := ∅; w_trace := [] |}.

(** A node [n] with children [a] and [b], a second component keyed [b] and
    a component keyed [c], all built with the constructor. *)
Definition family : M unit :=
  n <- new_Component view_class (VString "n") None VUndefined ;;
  a <- new_Component view_class (VString "a") None VUndefined ;;
  b <- new_Component view_class (VString "b") None VUndefined ;;
  b' <- new_Component view_class (VString "b") None VUndefined ;;
  c <- new_Component view_class (VString "c") None VUndefined ;;
  addChild n (VObject a) ;;
  addChild n (VObject b).

(** The world the family lives in: the node is at reference 0 with its
    child array at 1, the components [a], [b], the second [b] and [c] at 2,
    4, 6 and 8, each followed by its own empty child array. *)
Definition family_world : world :=
  Eval vm_compute in final_world (family empty_world).

Definition family_leaf (key : string) (children : loc) (parent : value)
    : Component :=
  {| _class := view_class; _key := VString key; _props := ∅; _state := ∅;
     _children := VObject children; _parent := parent |}.


(** ** The key invariant and the client's operations *)

(** A reference held in a value points into the heap. *)
Definition value_closed (h : heap) (v : value) : Prop :=
  match v with
  | VObject r => is_Some (h !! r)
  | _ => True
  end.


(** What a client does with nodes: it writes array literals (to pass them
    to a constructor), constructs nodes and calls their methods.  A call
    that throws leaves the world it had reached. *)
Inductive op : Type :=
  | ArrayLiteral (elems : list value)
  | New (cls : ClassDef) (key : value) (props : option Props) (children : value)
  | AddChild (this : loc) (component : value)
  | AddChildren (fuel : nat) (this : loc) (components : value)
  | RemoveChild (fuel : nat) (this : loc) (component : value)
  | RemoveChildren (this : loc)
  | SetState (this : loc) (nextState : option State) (cb : option callback)
  | ForceUpdate (this : loc).

Definition exec (o : op) : M unit :=
  match o with
  | ArrayLiteral elems => alloc (OArray elems) ;; ret tt
  | New cls key props children =>
      new_Component cls key props children ;; ret tt
  | AddChild this component => addChild this component
  | AddChildren fuel this components => addChildren fuel this components
  | RemoveChild fuel this component => removeChild fuel this component
  | RemoveChildren this => removeChildren this
  | SetState this nextState cb => setState this nextState cb
  | ForceUpdate this => forceUpdate this
  end.

Definition run (ops : list op) (w : world) : world :=
  foldl (fun w o => final_world (exec o w)) w ops.

(** The references an operation passes exist. *)
Definition op_closed (h : heap) (o : op) : Prop :=
  match o with
  | ArrayLiteral elems => Forall (value_closed h) elems
  | AddChild _ component => value_closed h component
  | _ => True
  end.

(** The array literals of the client hold no two children with one key. *)
Definition op_duplicate_free (h : heap) (o : op) : Prop :=
  match o with
  | ArrayLiteral elems => distinct_keys h elems
  | _ => True
  end.

(** Worlds reached from [w0] by operations with existing references;
    [dupfree] says whether array literals must be duplicate-free. *)
Inductive reachable (dupfree : bool) (w0 : world) : world -> Prop :=
  | reachable_start : reachable dupfree w0 w0
  | reachable_step w o :
      reachable dupfree w0 w ->
      op_closed (w_heap w) o ->
      (dupfree = true -> op_duplicate_free (w_heap w) o) ->
      reachable dupfree w0 (final_world (exec o w)).


(** A client that builds the sample family, adds a second component keyed
    [b], adds from an array literal and from the node's own child array,
    calls [removeChild], gives a second node the same child array and adds
    a string through it (which is pushed before the [TypeError]). *)
Definition family_ops : list op :=
  [ New view_class (VString "n") None VUndefined;
    New view_class (VString "a") None VUndefined;
    New view_class (VString "b") None VUndefined;
    New view_class (VString "b") None VUndefined;
    New view_class (VString "c") None VUndefined;
    AddChild 0%nat (VObject 2%nat);
    AddChild 0%nat (VObject 4%nat);
    AddChild 0%nat (VObject 6%nat);
    ArrayLiteral [VObject 8%nat; VObject 2%nat];
    AddChildren 5 0%nat (VObject 10%nat);
    AddChildren 5 0%nat (VObject 1%nat);
    RemoveChild 2 0%nat (VString "a");
    New view_class (VString "m") None (VObject 1%nat);
    AddChild 11%nat (VString "x") ].







(** ** Fuel *)

(** Keys are primitive values (strings, in the spec). *)
Definition primitive_keys (h : heap) : Prop :=
  forall r c, h !! r = Some (OComponent c) -> forall r', _key c <> VObject r'.

(** A value on which [removeChild] does not call itself. *)
Definition terminal (v : value) : bool :=
  negb (truthy v) || String.eqb (typeof v) "string".

(** ** Further vocabulary *)

(** [this.addChild(c)] for each [c] of a list in turn; an exception ends
    the sequence. *)
Fixpoint addChild_each (this : loc) (cs : list value) : M unit :=
  match cs with
  | [] => ret tt
  | c :: cs' => addChild this c ;; addChild_each this cs'
  end.

(** The model ran out of fuel. *)
Definition out_of_fuel {A} (o : outcome A) : bool :=
  match o with
  | Throw OutOfFuel _ => true
  | _ => false
  end.




(** Counting the invocations of one kind in a trace. *)
Definition count_calls (p : call -> bool) (tr : list event) : nat :=
  length (List.filter (fun e => p (ev_call e)) tr).

Definition is_gate_call (c : call) : bool :=
  match c with ShouldComponentUpdate _ _ => true | _ => false end.

Definition is_will_call (c : call) : bool :=
  match c with ComponentWillUpdate _ _ => true | _ => false end.

Definition is_render_call (c : call) : bool :=
  match c with Render _ => true | _ => false end.

Definition is_forced_render (c : call) : bool :=
  match c with Render forced => forced | _ => true end.

Definition is_did_call (c : call) : bool :=
  match c with ComponentDidUpdate _ _ => true | _ => false end.

(** The world the client program [family_ops] leaves: the nodes at 0 and
    11 share the child array at 1. *)
Definition shared_world : world :=
  Eval vm_compute in run family_ops empty_world.




(** * Properties *)

(** ** The update protocol *)

Lemma object_assign_empty (s : State) : object_assign ∅ (Some s) = s.
Proof. unfold object_assign. apply (right_id_L ∅ (∪)). Qed.

Lemma with_state_fields c s :
  _class (with_state c s) = _class c ∧ _key (with_state c s) = _key c ∧
  _props (with_state c s) = _props c ∧ _state (with_state c s) = s ∧
  _children (with_state c s) = _children c ∧
  _parent (with_state c s) = _parent c.
Proof. by destruct c. Qed.

(** *** Running the primitives *)

Lemma bind_Return {A B} (m : M A) (k : A -> M B) w a w' :
  m w = Return a w' -> bind m k w = k a w'.
Proof. unfold bind. by intros ->. Qed.

Lemma bind_Throw {A B} (m : M A) (k : A -> M B) w e w' :
  m w = Throw e w' -> bind m k w = Throw e w'.
Proof. unfold bind. by intros ->. Qed.

Lemma bind_run {A B} (m : M A) (k : A -> M B) w a w' o :
  m w = Return a w' -> k a w' = o -> bind m k w = o.
Proof. intros Hm <-. by apply bind_Return. Qed.

Lemma get_component_Return this w c :
  w_heap w !! this = Some (OComponent c) ->
  get_component this w = Return c w.
Proof.
  intros Hc. unfold get_component.
  rewrite (bind_Return get_heap _ w (w_heap w) w eq_refl). by rewrite Hc.
Qed.

Lemma read_Return {A} (f : Component -> A) this w c :
  w_heap w !! this = Some (OComponent c) ->
  read f this w = Return (f c) w.
Proof.
  intros Hc. unfold read.
  by rewrite (bind_Return _ _ _ _ _ (get_component_Return _ _ _ Hc)).
Qed.

Lemma emit_Return this cl w c :
  w_heap w !! this = Some (OComponent c) ->
  emit this cl w =
    Return tt {| w_heap := w_heap w;
                 w_trace := w_trace w ++ [mkEvent this cl (_state c)] |}.
Proof. intros Hc. unfold emit. by rewrite Hc. Qed.

Lemma set_component_Return this c w :
  set_component this c w =
    Return tt {| w_heap := <[this := OComponent c]> (w_heap w);
                 w_trace := w_trace w |}.
Proof. reflexivity. Qed.

Lemma write_state_Return this s w c :
  w_heap w !! this = Some (OComponent c) ->
  write_state this s w =
    Return tt {| w_heap := <[this := OComponent (with_state c s)]> (w_heap w);
                 w_trace := w_trace w |}.
Proof.
  intros Hc. unfold write_state.
  by rewrite (bind_Return _ _ _ _ _ (get_component_Return _ _ _ Hc)).
Qed.

Lemma call_shouldComponentUpdate_Return this nextProps nextState w c :
  w_heap w !! this = Some (OComponent c) ->
  call_shouldComponentUpdate this nextProps nextState w =
    Return (shouldComponentUpdate (_class c) (receiver c) nextProps nextState)
      {| w_heap := w_heap w;
         w_trace := w_trace w ++
           [mkEvent this (ShouldComponentUpdate nextProps nextState) (_state c)] |}.
Proof.
  intros Hc. unfold call_shouldComponentUpdate.
  rewrite (bind_Return _ _ _ _ _ (get_component_Return _ _ _ Hc)).
  by rewrite (bind_Return _ _ _ _ _ (emit_Return _ _ _ _ Hc)).
Qed.

Lemma call_render_Return this forced w c :
  w_heap w !! this = Some (OComponent c) ->
  render_defined (_class c) = true ->
  call_render this forced w =
    Return tt {| w_heap := w_heap w;
                 w_trace := w_trace w ++ [mkEvent this (Render forced) (_state c)] |}.
Proof.
  intros Hc Hr. unfold call_render.
  rewrite (bind_Return _ _ _ _ _ (get_component_Return _ _ _ Hc)), Hr.
  by apply emit_Return.
Qed.

Lemma call_render_Throw this forced w c :
  w_heap w !! this = Some (OComponent c) ->
  render_defined (_class c) = false ->
  call_render this forced w = Throw TypeError w.
Proof.
  intros Hc Hr. unfold call_render.
  by rewrite (bind_Return _ _ _ _ _ (get_component_Return _ _ _ Hc)), Hr.
Qed.

(** One step of a computation whose head is a primitive on a component
    found in the heap. *)
Ltac run_step Hc :=
  first
    [ erewrite bind_Return; [ | solve [ run_prim Hc ] ]
    | solve [ run_prim Hc ] ]
with run_prim Hc :=
  first
    [ eapply read_Return; exact Hc
    | eapply get_component_Return; exact Hc
    | eapply emit_Return; exact Hc
    | eapply write_state_Return; exact Hc
    | eapply call_shouldComponentUpdate_Return; exact Hc
    | eapply call_render_Return; [ exact Hc | eassumption ]
    | eapply bind_run; [ run_prim Hc | run_prim Hc ]
    | reflexivity ].

Lemma setState_run w this c nextState cb :
  w_heap w !! this = Some (OComponent c) ->
  (shouldComponentUpdate (_class c) (receiver c) (_props c)
     (shallow_merge (_state c) nextState) = true ->
   render_defined (_class c) = true) ->
  setState this nextState cb w =
    Return tt
      (commit w this c (shallow_merge (_state c) nextState)
         (gate_event this (_props c) (_state c)
            (shallow_merge (_state c) nextState)
          :: (if shouldComponentUpdate (_class c) (receiver c) (_props c)
                   (shallow_merge (_state c) nextState)
              then update_events this (_props c) (_state c)
                     (shallow_merge (_state c) nextState)
              else [])
          ++ callback_events this cb (_props c) (_state c)
               (shallow_merge (_state c) nextState))).
Proof.
  intros Hc Hr. unfold shallow_merge in *.
  set (NEW := object_assign (_state c) nextState) in *.
  unfold setState.
  run_step Hc. cbv zeta. rewrite object_assign_empty. fold NEW.
  run_step Hc. cbv beta.
  destruct (shouldComponentUpdate (_class c) (receiver c) (_props c) NEW).
  - specialize (Hr eq_refl).
    unfold call_componentWillUpdate, call_componentDidUpdate.
    erewrite bind_Return;
      [ | repeat (eapply bind_run; [ run_prim Hc | ]); run_prim Hc ].
    run_step Hc.
    assert (Hc' : <[this := OComponent (with_state c NEW)]> (w_heap w) !! this
                  = Some (OComponent (with_state c NEW)))
      by apply lookup_insert_eq.
    destruct cb as [f|]; simpl.
    + run_step Hc'. erewrite emit_Return by exact Hc'.
      unfold commit. simpl. by rewrite <- !app_assoc.
    + unfold commit, ret. simpl. by rewrite <- ?app_assoc.
  - erewrite bind_Return by reflexivity.
    run_step Hc.
    assert (Hc' : <[this := OComponent (with_state c NEW)]> (w_heap w) !! this
                  = Some (OComponent (with_state c NEW)))
      by apply lookup_insert_eq.
    destruct cb as [f|]; simpl.
    + run_step Hc'. erewrite emit_Return by exact Hc'.
      unfold commit. simpl. by rewrite <- !app_assoc.
    + unfold commit, ret. simpl. by rewrite <- ?app_assoc.
Qed.

(** Without a [render] method an allowed update throws before the commit. *)
Lemma setState_without_render w this c nextState cb :
  w_heap w !! this = Some (OComponent c) ->
  shouldComponentUpdate (_class c) (receiver c) (_props c)
    (shallow_merge (_state c) nextState) = true ->
  render_defined (_class c) = false ->
  exists w', setState this nextState cb w = Throw TypeError w' /\
             w_heap w' = w_heap w.
Proof.
  intros Hc Hg Hr. unfold shallow_merge in *. unfold setState.
  run_step Hc. cbv zeta. rewrite object_assign_empty.
  run_step Hc. cbv beta. rewrite Hg.
  unfold call_componentWillUpdate.
  eexists. split.
  - erewrite bind_Throw; [ reflexivity | ].
    erewrite bind_Return; [ | eapply bind_run; run_prim Hc ].
    erewrite bind_Throw; [ reflexivity | ].
    by eapply call_render_Throw.
  - reflexivity.
Qed.

(** On the class [Component] itself, which has no [render], the default
    gate lets the update through and the call throws before the commit. *)
Example setState_on_base_class :
  exists w',
    setState 0%nat (Some {[ "x" := VNumber 1 ]}) None
      (sample_world Component_class ∅) = Throw TypeError w' /\
    w_heap w' = w_heap (sample_world Component_class ∅).
Proof.
  exact (setState_without_render (sample_world Component_class ∅) 0%nat
           (sample_node Component_class ∅) (Some {[ "x" := VNumber 1 ]}) None
           eq_refl eq_refl eq_refl).
Qed.



(** C3: when [shouldComponentUpdate] returns [false] for the merged state,
    the call invokes the gate and (if given) the callback only, none of
    [componentWillUpdate], [render], [componentDidUpdate], and the node's
    state becomes the shallow merge of the previous state with the partial
    state. *)
Theorem setState_gate_false w this c nextState cb :
  w_heap w !! this = Some (OComponent c) ->
  shouldComponentUpdate (_class c) (receiver c) (_props c)
    (shallow_merge (_state c) nextState) = false ->
  let NEW := shallow_merge (_state c) nextState in
  let evs := gate_event this (_props c) (_state c) NEW
             :: callback_events this cb (_props c) (_state c) NEW in
  setState this nextState cb w = Return tt (commit w this c NEW evs) /\
  Forall (fun e => is_update_call (ev_call e) = false) evs /\
  w_heap (commit w this c NEW evs) !! this
    = Some (OComponent (with_state c NEW)).
Proof.
  intros Hc Hg NEW evs. split; [ | split ].
  - rewrite (setState_run w this c nextState cb Hc) by (rewrite Hg; done).
    by rewrite Hg.
  - subst evs. destruct cb; repeat constructor.
  - apply lookup_insert_eq.
Qed.

Lemma setState_gate_false_witness :
  let w := sample_world veto_class {[ "x" := VNumber 1 ]} in
  let c := sample_node veto_class {[ "x" := VNumber 1 ]} in
  let NEW := shallow_merge {[ "x" := VNumber 1 ]} (Some {[ "y" := VNumber 2 ]}) in
  let evs := gate_event 0%nat (_props c) (_state c) NEW
             :: callback_events 0%nat (Some 7%nat) (_props c) (_state c) NEW in
  setState 0%nat (Some {[ "y" := VNumber 2 ]}) (Some 7%nat) w
    = Return tt (commit w 0%nat c NEW evs) /\
  Forall (fun e => is_update_call (ev_call e) = false) evs /\
  w_heap (commit w 0%nat c NEW evs) !! 0%nat
    = Some (OComponent (with_state c NEW)).
Proof.
  intros w c NEW evs.
  apply (setState_gate_false w 0%nat c (Some {[ "y" := VNumber 2 ]})
           (Some 7%nat)); reflexivity.
Defined.

(** C4: when the gate returns [true], the call returns after exactly these
    invocations, in this order: the gate, [componentWillUpdate(props, NEW)],
    [render(true)] once, [componentDidUpdate(props, PREV)], all three still
    seeing the previous state, then the commit of [NEW], then
    [cb(PREV, props)] if a callback was given, which sees the new state. *)
Theorem setState_gate_true w this c nextState cb :
  w_heap w !! this = Some (OComponent c) ->
  render_defined (_class c) = true ->
  shouldComponentUpdate (_class c) (receiver c) (_props c)
    (shallow_merge (_state c) nextState) = true ->
  let PREV := _state c in
  let NEW := shallow_merge (_state c) nextState in
  setState this nextState cb w =
    Return tt
      {| w_heap := <[this := OComponent (with_state c NEW)]> (w_heap w);
         w_trace := w_trace w ++
           [ mkEvent this (ShouldComponentUpdate (_props c) NEW) PREV;
             mkEvent this (ComponentWillUpdate (_props c) NEW) PREV;
             mkEvent this (Render true) PREV;
             mkEvent this (ComponentDidUpdate (_props c) PREV) PREV ]
           ++ match cb with
              | Some f => [ mkEvent this (Callback f PREV (_props c)) NEW ]
              | None => []
              end |}.
Proof.
  intros Hc Hr Hg PREV NEW.
  rewrite (setState_run w this c nextState cb Hc) by done.
  rewrite Hg. reflexivity.
Qed.

Lemma setState_gate_true_witness :
  let c := sample_node lazy_class {[ "x" := VNumber 1 ]} in
  let w := sample_world lazy_class {[ "x" := VNumber 1 ]} in
  let PREV := _state c in
  let NEW := shallow_merge (_state c) (Some {[ "x" := VNumber 2 ]}) in
  setState 0%nat (Some {[ "x" := VNumber 2 ]}) (Some 7%nat) w =
    Return tt
      {| w_heap := <[0%nat := OComponent (with_state c NEW)]> (w_heap w);
         w_trace := w_trace w ++
           [ mkEvent 0%nat (ShouldComponentUpdate (_props c) NEW) PREV;
             mkEvent 0%nat (ComponentWillUpdate (_props c) NEW) PREV;
             mkEvent 0%nat (Render true) PREV;
             mkEvent 0%nat (ComponentDidUpdate (_props c) PREV) PREV ]
           ++ [ mkEvent 0%nat (Callback 7%nat PREV (_props c)) NEW ] |}.
Proof.
  intros c w PREV NEW.
  exact (setState_gate_true w 0%nat c (Some {[ "x" := VNumber 2 ]})
           (Some 7%nat) eq_refl eq_refl eq_refl).
Defined.

(** C9: [forceUpdate()] makes exactly one invocation, [render(true)], and
    none of [shouldComponentUpdate], [componentWillUpdate],
    [componentDidUpdate]; the heap, hence the node's state, props, key and
    children, is left as it was. *)
Theorem forceUpdate_renders_once w this c :
  w_heap w !! this = Some (OComponent c) ->
  render_defined (_class c) = true ->
  forceUpdate this w =
    Return tt {| w_heap := w_heap w;
                 w_trace := w_trace w ++ [ mkEvent this (Render true) (_state c) ] |}.
Proof. intros Hc Hr. unfold forceUpdate. by apply call_render_Return. Qed.

Lemma forceUpdate_renders_once_witness :
  forceUpdate 0%nat (sample_world veto_class {[ "x" := VNumber 1 ]}) =
    Return tt
      {| w_heap := w_heap (sample_world veto_class {[ "x" := VNumber 1 ]});
         w_trace := w_trace (sample_world veto_class {[ "x" := VNumber 1 ]}) ++
           [ mkEvent 0%nat (Render true)
               (_state (sample_node veto_class {[ "x" := VNumber 1 ]})) ] |}.
Proof.
  exact (forceUpdate_renders_once
           (sample_world veto_class {[ "x" := VNumber 1 ]}) 0%nat
           (sample_node veto_class {[ "x" := VNumber 1 ]}) eq_refl eq_refl).
Defined.

Lemma set_state_run_aux w this c s :
  w_heap w !! this = Some (OComponent c) ->
  render_defined (_class c) = true ->
  set_state this (Some s) w = setState this (Some s) None w /\
  set_state this (Some s) w =
    Return tt
      (commit w this c (s ∪ _state c)
         (gate_event this (_props c) (_state c) (s ∪ _state c)
          :: (if shouldComponentUpdate (_class c) (receiver c) (_props c)
                   (s ∪ _state c)
              then update_events this (_props c) (_state c) (s ∪ _state c)
              else []))).
Proof.
  intros Hc Hr. split; [ reflexivity | ].
  unfold set_state.
  rewrite (setState_run w this c (Some s) None Hc) by done.
  simpl callback_events. by rewrite app_nil_r.
Qed.



(** The assigned object is merged, not installed: the key [x] survives. *)
Example set_state_keeps_old_keys :
  exists w' c',
    set_state 0%nat (Some {[ "y" := VNumber 2 ]})
      (sample_world lazy_class {[ "x" := VNumber 1 ]}) = Return tt w' /\
    w_heap w' !! 0%nat = Some (OComponent c') /\
    _state c' !! "x" = Some (VNumber 1) /\
    _state c' !! "y" = Some (VNumber 2).
Proof.
  eexists _, _. split.
  - exact (proj2 (set_state_run_aux
                    (sample_world lazy_class {[ "x" := VNumber 1 ]}) 0%nat
                    (sample_node lazy_class {[ "x" := VNumber 1 ]})
                    {[ "y" := VNumber 2 ]} eq_refl eq_refl)).
  - split; [ apply lookup_insert_eq | ]. split; reflexivity.
Qed.

(** ** Child management *)

(** *** [findIndex] *)

Lemma findIndex_from_none p l i :
  0 <= i -> findIndex_from p l i = -1 -> forall x, x ∈ l -> p x = false.
Proof.
  revert i. induction l as [|y l IH]; intros i Hi Hf x Hx.
  - by apply elem_of_nil in Hx.
  - simpl in Hf. destruct (p y) eqn:Hy; [ lia | ].
    apply elem_of_cons in Hx as [-> | Hx]; [ done | ].
    apply (IH (i + 1)); [ lia | done | done ].
Qed.

Lemma findIndex_from_all_false p l i :
  (forall x, x ∈ l -> p x = false) -> findIndex_from p l i = -1.
Proof.
  revert i. induction l as [|y l IH]; intros i Hall; [ done | ].
  simpl. rewrite (Hall y) by apply list_elem_of_here.
  apply IH. intros x Hx. apply Hall. by apply list_elem_of_further.
Qed.

Lemma findIndex_from_found p l i :
  0 <= i -> findIndex_from p l i <> -1 ->
  exists (n : nat) x,
    findIndex_from p l i = i + Z.of_nat n /\ l !! n = Some x /\ p x = true /\
    (forall (m : nat) y, (m < n)%nat -> l !! m = Some y -> p y = false).
Proof.
  revert i. induction l as [|y l IH]; intros i Hi Hf; [ done | ].
  simpl in *. destruct (p y) eqn:Hy.
  - exists 0%nat, y. repeat split; [ lia | done | ]. intros m z Hm. lia.
  - destruct (IH (i + 1)) as (n & x & Hn & Hx & Hp & Hbefore); [ lia | done | ].
    exists (S n), x. repeat split; [ lia | done | done | ].
    intros [|m] z Hm Hz; simpl in Hz; [ by simplify_eq | ].
    apply (Hbefore m); [ lia | done ].
Qed.

Lemma findIndex_none p l :
  findIndex p l = -1 <-> (forall x, x ∈ l -> p x = false).
Proof.
  split.
  - by apply findIndex_from_none.
  - apply findIndex_from_all_false.
Qed.

Lemma findIndex_found p l :
  findIndex p l <> -1 ->
  exists (n : nat) x,
    findIndex p l = Z.of_nat n /\ l !! n = Some x /\ p x = true /\
    (forall (m : nat) y, (m < n)%nat -> l !! m = Some y -> p y = false).
Proof.
  intros Hf. destruct (findIndex_from_found p l 0) as (n & x & Hn & H);
    [ lia | done | ].
  exists n, x. split; [ unfold findIndex; lia | done ].
Qed.


(** *** Keys of children *)

Lemma strict_eq_true a b : strict_eq a b = true <-> a = b.
Proof. unfold strict_eq. apply bool_decide_eq_true. Qed.

Lemma strict_eq_false a b : strict_eq a b = false <-> a <> b.
Proof. unfold strict_eq. apply bool_decide_eq_false. Qed.

Lemma same_key_true h component el :
  same_key h component el = true <-> has_key h (key_of h component) el.
Proof.
  unfold same_key, has_key. rewrite andb_true_iff, strict_eq_true. done.
Qed.

Lemma same_key_false h component el :
  same_key h component el = false <->
  (truthy el = true -> key_of h el <> key_of h component).
Proof.
  unfold same_key. destruct (truthy el); simpl.
  - rewrite strict_eq_false. naive_solver.
  - naive_solver.
Qed.

Lemma distinct_keys_at_most_one h k l :
  distinct_keys h l -> at_most_one h k l.
Proof.
  intros Hd i j x y Hx Hy [Htx Hkx] [Hty Hky].
  apply (Hd i j x y); congruence.
Qed.




Lemma same_keys_refl h : same_keys h h.
Proof. done. Qed.



(** *** Running [addChild] *)

Lemma get_array_Return w a l :
  w_heap w !! a = Some (OArray l) -> get_array (VObject a) w = Return (a, l) w.
Proof.
  intros Ha. unfold get_array.
  rewrite (bind_Return get_heap _ w (w_heap w) w eq_refl). by rewrite Ha.
Qed.

Lemma children_array_Return w this n a l :
  w_heap w !! this = Some (OComponent n) ->
  _children n = VObject a ->
  w_heap w !! a = Some (OArray l) ->
  bind (read _children this) (fun ch => get_array ch) w = Return (a, l) w.
Proof.
  intros Hn Hch Ha.
  rewrite (bind_Return _ _ _ _ _ (read_Return _children _ _ _ Hn)), Hch.
  by apply get_array_Return.
Qed.

Lemma assign_parent_component w r c p :
  w_heap w !! r = Some (OComponent c) ->
  assign_parent (VObject r) p w =
    Return tt {| w_heap := <[r := OComponent (with_parent c p)]> (w_heap w);
                 w_trace := w_trace w |}.
Proof.
  intros Hr. unfold assign_parent.
  rewrite (bind_Return get_heap _ w (w_heap w) w eq_refl). by rewrite Hr.
Qed.

Lemma addChild_falsy this component w :
  truthy component = false -> addChild this component w = Return tt w.
Proof. intros Hf. unfold addChild. by rewrite Hf. Qed.

(** The two branches of [addChild] on a node whose child array is [l]. *)
Lemma addChild_run w this n a l component :
  w_heap w !! this = Some (OComponent n) ->
  _children n = VObject a ->
  w_heap w !! a = Some (OArray l) ->
  truthy component = true ->
  addChild this component w =
    if findIndex (same_key (w_heap w) component) l =? -1 then
      assign_parent component (VObject this)
        {| w_heap := <[a := OArray (l ++ [component])]> (w_heap w);
           w_trace := w_trace w |}
    else
      Return tt
        {| w_heap :=
             <[a := OArray
                      (<[Z.to_nat (findIndex (same_key (w_heap w) component) l)
                         := component]> l)]> (w_heap w);
           w_trace := w_trace w |}.
Proof.
  intros Hn Hch Ha Ht. unfold addChild. rewrite Ht. change (negb true) with false. cbv iota.
  rewrite (bind_Return _ _ _ _ _ (children_array_Return _ _ _ _ _ Hn Hch Ha)).
  rewrite (bind_Return get_heap _ w (w_heap w) w eq_refl).
  cbv beta zeta. cbn [fst snd].
  destruct (findIndex (same_key (w_heap w) component) l =? -1); reflexivity.
Qed.

(** A component is never stored where an array is. *)
Lemma component_not_array (h : heap) r a c l :
  h !! r = Some (OComponent c) -> h !! a = Some (OArray l) -> a <> r.
Proof. intros Hr Ha ->. congruence. Qed.

Lemma addChild_append w this n a l r c :
  w_heap w !! this = Some (OComponent n) ->
  _children n = VObject a ->
  w_heap w !! a = Some (OArray l) ->
  w_heap w !! r = Some (OComponent c) ->
  (forall el, el ∈ l -> ~ has_key (w_heap w) (_key c) el) ->
  addChild this (VObject r) w =
    Return tt
      {| w_heap := <[r := OComponent (with_parent c (VObject this))]>
                     (<[a := OArray (l ++ [VObject r])]> (w_heap w));
         w_trace := w_trace w |}.
Proof.
  intros Hn Hch Ha Hr Hnone.
  rewrite (addChild_run w this n a l (VObject r) Hn Hch Ha eq_refl).
  assert (Hidx : findIndex (same_key (w_heap w) (VObject r)) l = -1).
  { apply findIndex_none. intros el Hel.
    destruct (same_key (w_heap w) (VObject r) el) eqn:Hs; [ | done ].
    apply same_key_true in Hs. simpl in Hs. rewrite Hr in Hs.
    by destruct (Hnone el Hel). }
  rewrite Hidx. simpl Z.eqb. cbv iota.
  rewrite (assign_parent_component _ r c); [ done | ].
  simpl. rewrite lookup_insert_ne; [ done | ].
  by eapply component_not_array.
Qed.





(** *** [addChild] *)

Example family_world_layout :
  w_heap family_world !! 0%nat
    = Some (OComponent (family_leaf "n" 1%nat VUndefined)) /\
  w_heap family_world !! 1%nat = Some (OArray [VObject 2%nat; VObject 4%nat]) /\
  w_heap family_world !! 2%nat
    = Some (OComponent (family_leaf "a" 3%nat (VObject 0%nat))) /\
  w_heap family_world !! 4%nat
    = Some (OComponent (family_leaf "b" 5%nat (VObject 0%nat))) /\
  w_heap family_world !! 6%nat
    = Some (OComponent (family_leaf "b" 7%nat VUndefined)) /\
  w_heap family_world !! 8%nat
    = Some (OComponent (family_leaf "c" 9%nat VUndefined)).
Proof. repeat split. Qed.




(** The scenario of the spec: children keyed [a], [b]; adding another
    component keyed [b] replaces position 1 and leaves its parent unset. *)
Example addChild_same_key_replaces :
  exists w',
    addChild 0%nat (VObject 6%nat) family_world = Return tt w' /\
    w_heap w' !! 1%nat = Some (OArray [VObject 2%nat; VObject 6%nat]) /\
    w_heap w' !! 6%nat = Some (OComponent (family_leaf "b" 7%nat VUndefined)).
Proof. eexists. split; [ vm_compute; reflexivity | split; reflexivity ]. Qed.

Example addChild_new_key_appends :
  exists w',
    addChild 0%nat (VObject 8%nat) family_world = Return tt w' /\
    w_heap w' !! 1%nat
      = Some (OArray [VObject 2%nat; VObject 4%nat; VObject 8%nat]) /\
    w_heap w' !! 8%nat
      = Some (OComponent (family_leaf "c" 9%nat (VObject 0%nat))).
Proof. eexists. split; [ vm_compute; reflexivity | split; reflexivity ]. Qed.




(** *** [removeChildren] *)

Lemma alloc_fresh (h : heap) : h !! fresh (dom h) = None.
Proof. apply not_elem_of_dom, is_fresh. Qed.



(** The removed children [a] and [b] still name the node as their parent. *)
Example removeChildren_leaves_stale_parent :
  exists w',
    removeChildren 0%nat family_world = Return tt w' /\
    w_heap w' !! 0%nat
      = Some (OComponent (family_leaf "n" 10%nat VUndefined)) /\
    w_heap w' !! 10%nat = Some (OArray []) /\
    w_heap w' !! 2%nat = Some (OComponent (family_leaf "a" 3%nat (VObject 0%nat))) /\
    w_heap w' !! 4%nat = Some (OComponent (family_leaf "b" 5%nat (VObject 0%nat))).
Proof.
  eexists. split; [ vm_compute; reflexivity | repeat split ].
Qed.

(** *** [removeChild] *)

(** In the string branch [component.key] is a property of a string
    primitive, hence [undefined]: the search ignores the string. *)
Lemma same_key_string h s el :
  same_key h (VString s) el = truthy el && strict_eq (key_of h el) VUndefined.
Proof. reflexivity. Qed.

Lemma removeChild_falsy fuel this component w :
  truthy component = false ->
  removeChild (S fuel) this component w = Return tt w.
Proof. intros Hf. simpl. by rewrite Hf. Qed.

Lemma removeChild_string_run fuel w this n a l s :
  w_heap w !! this = Some (OComponent n) ->
  _children n = VObject a ->
  w_heap w !! a = Some (OArray l) ->
  s <> EmptyString ->
  removeChild (S fuel) this (VString s) w =
    if negb (findIndex (same_key (w_heap w) (VString s)) l =? -1) then
      Return tt
        {| w_heap :=
             <[a := OArray (splice1 (findIndex (same_key (w_heap w) (VString s)) l) l)]>
               (w_heap w);
           w_trace := w_trace w |}
    else Return tt w.
Proof.
  intros Hn Hch Ha Hs. simpl removeChild.
  assert (Ht : String.eqb s EmptyString = false) by (by apply String.eqb_neq).
  rewrite Ht. change (negb (negb false)) with false. cbv iota.
  rewrite (bind_Return _ _ _ _ _ (children_array_Return _ _ _ _ _ Hn Hch Ha)).
  rewrite (bind_Return get_heap _ w (w_heap w) w eq_refl).
  cbv beta zeta. cbn [fst snd].
  destruct (negb (findIndex (same_key (w_heap w) (VString s)) l =? -1));
    reflexivity.
Qed.

(** Whatever the string, nothing is removed from a child array whose
    members all have a defined key. *)
Lemma removeChild_string_noop fuel w this n a l s :
  w_heap w !! this = Some (OComponent n) ->
  _children n = VObject a ->
  w_heap w !! a = Some (OArray l) ->
  (forall el, el ∈ l -> truthy el = true -> key_of (w_heap w) el <> VUndefined) ->
  removeChild (S fuel) this (VString s) w = Return tt w.
Proof.
  intros Hn Hch Ha Hdef.
  destruct (decide (s = EmptyString)) as [->|Hs];
    [ by apply removeChild_falsy | ].
  rewrite (removeChild_string_run fuel w this n a l s Hn Hch Ha Hs).
  assert (Hidx : findIndex (same_key (w_heap w) (VString s)) l = -1).
  { apply findIndex_none. intros el Hel. rewrite same_key_string.
    destruct (truthy el) eqn:Ht; [ | done ]. simpl.
    apply strict_eq_false. by apply Hdef. }
  by rewrite Hidx.
Qed.

(** C1, at the failing input: on the node with children keyed [a] and [b],
    [removeChild] with the string [b], and with the child [b] itself,
    returns with the world unchanged; the child keyed [b] stays. *)
Theorem removeChild_by_key_keeps_child :
  w_heap family_world !! 0%nat
    = Some (OComponent (family_leaf "n" 1%nat VUndefined)) /\
  w_heap family_world !! 1%nat = Some (OArray [VObject 2%nat; VObject 4%nat]) /\
  key_of (w_heap family_world) (VObject 4%nat) = VString "b" /\
  removeChild 2 0%nat (VString "b") family_world = Return tt family_world /\
  removeChild 2 0%nat (VObject 4%nat) family_world = Return tt family_world.
Proof. repeat split; vm_compute; reflexivity. Qed.

(** ** The key invariant *)










(** A closed value has the same key after an allocation. *)
Lemma key_of_alloc h r o v :
  h !! r = None -> value_closed h v -> key_of (<[r := o]> h) v = key_of h v.
Proof.
  intros Hr Hv. destruct v as [ | | | | |r']; try done. simpl in *.
  rewrite lookup_insert_ne; [ done | ]. intros ->. rewrite Hr in Hv.
  by destruct Hv.
Qed.




(** *** Every operation keeps the invariant *)

Lemma final_world_bind {A B} (m : M A) (k : A -> M B) w :
  final_world (bind m k w) =
    match m w with
    | Return a w' => final_world (k a w')
    | Throw _ w' => w'
    end.
Proof. unfold bind. by destruct (m w). Qed.

Lemma get_component_cases this w :
  (exists c, w_heap w !! this = Some (OComponent c)) \/
  get_component this w = Throw TypeError w.
Proof.
  unfold get_component.
  rewrite (bind_Return get_heap _ w (w_heap w) w eq_refl).
  destruct (w_heap w !! this) as [[c|l]|]; eauto.
Qed.

Lemma read_Throw {A} (f : Component -> A) this w :
  get_component this w = Throw TypeError w ->
  read f this w = Throw TypeError w.
Proof. intros Hthrow. unfold read. by rewrite (bind_Throw _ _ _ _ _ Hthrow). Qed.

Lemma get_array_cases v w :
  (exists a l, v = VObject a /\ w_heap w !! a = Some (OArray l) /\
               get_array v w = Return (a, l) w) \/
  get_array v w = Throw TypeError w.
Proof.
  unfold get_array.
  rewrite (bind_Return get_heap _ w (w_heap w) w eq_refl).
  destruct v as [ | | | | |a]; eauto.
  destruct (w_heap w !! a) as [[c|l]|] eqn:Ha; eauto 10.
Qed.

Lemma children_array_cases this w :
  (exists n a l, w_heap w !! this = Some (OComponent n) /\
                 _children n = VObject a /\
                 w_heap w !! a = Some (OArray l)) \/
  bind (read _children this) (fun ch => get_array ch) w = Throw TypeError w.
Proof.
  destruct (get_component_cases this w) as [[n Hn] | Hthrow].
  - rewrite (bind_Return _ _ _ _ _ (read_Return _children _ _ _ Hn)).
    destruct (get_array_cases (_children n) w)
      as [(a & l & Hch & Ha & _) | Hthrow]; eauto 10.
  - right. by rewrite (bind_Throw _ _ _ _ _ (read_Throw _children _ _ Hthrow)).
Qed.







Lemma forceUpdate_heap this w :
  w_heap (final_world (forceUpdate this w)) = w_heap w.
Proof.
  unfold forceUpdate, call_render. rewrite final_world_bind.
  destruct (get_component_cases this w) as [[c Hc] | ->]; [ | done ].
  rewrite (get_component_Return _ _ _ Hc).
  destruct (render_defined (_class c)); [ | done ].
  by rewrite (emit_Return _ _ _ _ Hc).
Qed.

(** The world the constructor returns. *)
Lemma new_Component_Return cls key props children w :
  let this := fresh (dom (w_heap w)) in
  let h1 := <[this := OComponent (blank cls)]> (w_heap w) in
  let a := fresh (dom h1) in
  new_Component cls key props children w =
    Return this
      {| w_heap :=
           <[this := OComponent
               {| _class := cls;
                  _key := match key with
                          | VUndefined => VString EmptyString
                          | _ => key
                          end;
                  _props := match props with None => ∅ | Some p => p end;
                  _state := ∅;
                  _children := match children with
                               | VUndefined => VObject a
                               | _ => children
                               end;
                  _parent := VUndefined |}]>
             (match children with
              | VUndefined => <[a := OArray []]> h1
              | _ => h1
              end);
         w_trace := w_trace w |}.
Proof. destruct children; reflexivity. Qed.


(** *** Reachable worlds *)




Lemma reachable_run dupfree w0 ops :
  (forall pre o post, ops = pre ++ o :: post ->
     op_closed (w_heap (run pre w0)) o /\
     (dupfree = true -> op_duplicate_free (w_heap (run pre w0)) o)) ->
  reachable dupfree w0 (run ops w0).
Proof.
  induction ops as [|o ops IH] using rev_ind; intros Hok.
  - apply reachable_start.
  - unfold run. rewrite foldl_app. simpl.
    destruct (Hok ops o [] eq_refl) as [Hcl Hdup].
    apply reachable_step; [ | done | done ].
    apply IH. intros pre o' post ->.
    apply (Hok pre o' (post ++ [o])). by rewrite <- app_assoc.
Qed.

(** *** Checking a client program *)








(** What the client program leaves: the node [n] and the node [m] share one
    child array, in which the string pushed before the [TypeError] stays. *)
Example family_ops_result :
  w_heap (run family_ops empty_world) !! 1%nat
    = Some (OArray [VObject 2%nat; VObject 6%nat; VObject 8%nat; VString "x"]) /\
  w_heap (run family_ops empty_world) !! 0%nat
    = Some (OComponent (family_leaf "n" 1%nat VUndefined)) /\
  w_heap (run family_ops empty_world) !! 11%nat
    = Some (OComponent (family_leaf "m" 1%nat VUndefined)).
Proof.
  split; [ vm_compute; reflexivity | ].
  split; vm_compute; reflexivity.
Qed.


(** ** Fuel *)

(** The recursion of [removeChild] and the loop of [addChildren] end; the
    fuel of the model is never what stops them. *)

Lemma removeChild_terminal fuel this v w :
  terminal v = true ->
  removeChild (S fuel) this v w = removeChild 1 this v w.
Proof.
  unfold terminal. simpl. destruct (negb (truthy v)); [ done | ].
  simpl. by intros ->.
Qed.

Lemma removeChild_step fuel this v w :
  terminal v = false ->
  removeChild (S fuel) this v w = removeChild fuel this (key_of (w_heap w) v) w.
Proof.
  unfold terminal. simpl. destruct (negb (truthy v)); [ done | ].
  simpl. by intros ->.
Qed.

Lemma removeChild_terminal_outcome this v w w' :
  terminal v = true -> removeChild 1 this v w <> Throw OutOfFuel w'.
Proof.
  unfold terminal. simpl. destruct (negb (truthy v)); [ done | ].
  simpl. intros ->.
  destruct (children_array_cases this w)
    as [(n & a & l & Hn & Hch & Ha) | Hthrow].
  - rewrite (bind_Return _ _ _ _ _ (children_array_Return _ _ _ _ _ Hn Hch Ha)).
    rewrite (bind_Return get_heap _ w (w_heap w) w eq_refl).
    cbv beta zeta. by destruct (negb _).
  - by rewrite (bind_Throw _ _ _ _ _ Hthrow).
Qed.

Lemma key_of_primitive h v :
  primitive_keys h -> forall r, key_of h v <> VObject r.
Proof.
  intros Hprim r. destruct v as [ | | | | |r0]; try done. simpl.
  destruct (h !! r0) as [[c|l]|] eqn:Hr0; try done. by eapply Hprim.
Qed.

Lemma key_of_key_terminal h v :
  primitive_keys h -> terminal (key_of h (key_of h v)) = true.
Proof.
  intros Hprim. pose proof (key_of_primitive h v Hprim) as Hk.
  destruct (key_of h v) as [ | | | | |r]; try done. by destruct (Hk r).
Qed.

(** With primitive keys the recursion is at most three calls deep. *)
Lemma removeChild_enough_fuel fuel this component w :
  primitive_keys (w_heap w) ->
  removeChild (3 + fuel) this component w = removeChild 3 this component w /\
  forall w', removeChild 3 this component w <> Throw OutOfFuel w'.
Proof.
  intros Hprim. change (3 + fuel)%nat with (S (S (S fuel))).
  destruct (terminal component) eqn:Ht1.
  { rewrite (removeChild_terminal (S (S fuel)) this component w Ht1).
    rewrite (removeChild_terminal 2 this component w Ht1).
    split; [ done | ]. intros w'. by apply removeChild_terminal_outcome. }
  rewrite (removeChild_step (S (S fuel)) this component w Ht1).
  rewrite (removeChild_step 2 this component w Ht1).
  destruct (terminal (key_of (w_heap w) component)) eqn:Ht2.
  { rewrite (removeChild_terminal (S fuel) this _ w Ht2).
    rewrite (removeChild_terminal 1 this _ w Ht2).
    split; [ done | ]. intros w'. by apply removeChild_terminal_outcome. }
  rewrite (removeChild_step (S fuel) this _ w Ht2).
  rewrite (removeChild_step 1 this _ w Ht2).
  pose proof (key_of_key_terminal (w_heap w) component Hprim) as Ht3.
  rewrite (removeChild_terminal fuel this _ w Ht3).
  split; [ done | ]. intros w'. by apply removeChild_terminal_outcome.
Qed.

Lemma same_key_refl h v : truthy v = true -> same_key h v v = true.
Proof. intros Ht. apply same_key_true. by split. Qed.

(** A call [addChild(CHILD)] made by the loop on the array it iterates
    never lengthens that array, and fuel plays no part in it. *)
Lemma addChild_keeps_length this CHILD w ac lc (i : nat) :
  w_heap w !! ac = Some (OArray lc) ->
  lc !! i = Some CHILD ->
  (exists lc', w_heap (final_world (addChild this CHILD w)) !! ac
                 = Some (OArray lc') /\ length lc' = length lc) /\
  (forall w', addChild this CHILD w <> Throw OutOfFuel w').
Proof.
  intros Hac Hi.
  destruct (truthy CHILD) eqn:Ht;
    [ | rewrite addChild_falsy by done; split; [ by exists lc | done ] ].
  destruct (children_array_cases this w)
    as [(n & a & l & Hn & Hch & Ha) | Hthrow].
  - rewrite (addChild_run w this n a l CHILD Hn Hch Ha Ht).
    destruct (findIndex (same_key (w_heap w) CHILD) l =? -1) eqn:Hidx.
    + apply Z.eqb_eq in Hidx. rewrite findIndex_none in Hidx.
      assert (Hne : a <> ac).
      { intros ->. assert (l = lc) by congruence. subst l.
        specialize (Hidx CHILD (list_elem_of_lookup_2 _ _ _ Hi)).
        by rewrite same_key_refl in Hidx. }
      destruct CHILD as [ | | | | |r]; try done;
        try (split; [ exists lc; simpl; by rewrite lookup_insert_ne | done ]).
      unfold assign_parent.
      match goal with |- context [bind get_heap ?k ?w1] =>
        rewrite (bind_Return get_heap k w1 (w_heap w1) w1 eq_refl) end.
      cbn [w_heap].
      destruct (<[a := OArray (l ++ [VObject r])]> (w_heap w) !! r)
        as [[c|l0]|] eqn:Hr;
        try (split; [ exists lc; simpl; by rewrite lookup_insert_ne | done ]).
      split; [ | done ]. exists lc. simpl. split; [ | done ].
      rewrite lookup_insert_ne; [ by rewrite lookup_insert_ne | ].
      intros ->. rewrite lookup_insert_ne in Hr by done. congruence.
    + split; [ | done ]. simpl.
      destruct (decide (a = ac)) as [->|Hne].
      * rewrite lookup_insert_eq. eexists. split; [ done | ].
        rewrite length_insert. congruence.
      * exists lc. by rewrite lookup_insert_ne.
  - unfold addChild. rewrite Ht. change (negb true) with false. cbv iota.
    rewrite (bind_Throw _ _ _ _ _ Hthrow). split; [ by exists lc | done ].
Qed.

Lemma addChildren_loop_enough_fuel fuel this ac lc (i : nat) w :
  w_heap w !! ac = Some (OArray lc) ->
  (length lc - i < fuel)%nat ->
  forall w', addChildren_loop fuel this (VObject ac) i w <> Throw OutOfFuel w'.
Proof.
  revert i w lc. induction fuel as [|fuel IH]; intros i w lc Hac Hfuel w';
    [ lia | ].
  simpl addChildren_loop.
  rewrite (bind_Return _ _ _ _ _ (get_array_Return w ac lc Hac)). cbn [snd].
  destruct (lc !! i) as [CHILD|] eqn:Hi; [ | done ].
  destruct (addChild_keeps_length this CHILD w ac lc i Hac Hi)
    as [(lc' & Hac' & Hlen) Hout].
  unfold bind.
  destruct (addChild this CHILD w) as [[] w1 | e w1] eqn:Hrun.
  - simpl in Hac'. apply (IH (S i) w1 lc' Hac').
    apply lookup_lt_Some in Hi. lia.
  - intros Heq. simplify_eq. by destruct (Hout w').
Qed.

(** The loop of [addChildren] over an array of [n] elements ends within
    [n + 1] steps, also when the array is the node's own child array. *)
Lemma addChildren_enough_fuel fuel this ac lc w :
  w_heap w !! ac = Some (OArray lc) ->
  (length lc < fuel)%nat ->
  forall w', addChildren fuel this (VObject ac) w <> Throw OutOfFuel w'.
Proof.
  intros Hac Hfuel. unfold addChildren.
  apply (addChildren_loop_enough_fuel fuel this ac lc 0 w Hac). lia.
Qed.


(** * Further properties of the code *)

(** ** The constructor *)

(** X1: [new C(key, props, children)] returns a reference that was not in
    use, leaves every existing object and the trace as they were, and the
    new node has the class, an empty state, no parent, the key and props
    given (or [''] and [{}]); its child array is the very value given or,
    by default, a new empty array that no other object holds. *)
Theorem new_Component_fresh cls key props children w :
  exists this w' c,
    new_Component cls key props children w = Return this w' /\
    w_heap w !! this = None /\
    (forall r o, w_heap w !! r = Some o -> w_heap w' !! r = Some o) /\
    w_trace w' = w_trace w /\
    w_heap w' !! this = Some (OComponent c) /\
    _class c = cls /\ _state c = ∅ /\ _parent c = VUndefined /\
    _key c = match key with VUndefined => VString EmptyString | _ => key end /\
    _props c = match props with None => ∅ | Some p => p end /\
    (children <> VUndefined -> _children c = children) /\
    (children = VUndefined ->
       exists a, _children c = VObject a /\ a <> this /\
                 w_heap w !! a = None /\ w_heap w' !! a = Some (OArray [])).
Proof.
  pose proof (new_Component_Return cls key props children w) as Hrun.
  cbv zeta in Hrun.
  pose proof (alloc_fresh (w_heap w)) as Hfresh.
  set (this := fresh (dom (w_heap w))) in *.
  pose proof (alloc_fresh (<[this := OComponent (blank cls)]> (w_heap w)))
    as Hfresh'.
  set (a := fresh (dom (<[this := OComponent (blank cls)]> (w_heap w)))) in *.
  assert (Hne : this <> a).
  { intros Heq. rewrite <- Heq in Hfresh'.
    by rewrite lookup_insert_eq in Hfresh'. }
  rewrite lookup_insert_ne in Hfresh' by done.
  eexists this, _, _. split; [ exact Hrun | ]. simpl.
  split; [ done | ]. split.
  { intros r o Hr.
    assert (this <> r) by (intros ->; congruence).
    assert (a <> r) by (intros ->; congruence).
    rewrite lookup_insert_ne by done.
    destruct children; rewrite ?lookup_insert_ne by done; done. }
  split; [ done | ]. split; [ apply lookup_insert_eq | ].
  repeat (split; [ done | ]). split.
  - by destruct children.
  - intros ->. exists a. split; [ done | ]. split; [ done | ].
    split; [ done | ].
    rewrite lookup_insert_ne by done. apply lookup_insert_eq.
Qed.

(** X2: the constructor does not copy the array it is given.  A node [m]
    constructed on the child array of a node [n] shares it: a child added
    through [m] is a child of [n] as well, while its parent is [m]. *)
Theorem constructor_shares_child_array w n cn a l r c cls key props :
  w_heap w !! n = Some (OComponent cn) ->
  _children cn = VObject a ->
  w_heap w !! a = Some (OArray l) ->
  w_heap w !! r = Some (OComponent c) ->
  Forall (value_closed (w_heap w)) l ->
  (forall el, el ∈ l -> ~ has_key (w_heap w) (_key c) el) ->
  exists m w1 w2 cn' c',
    new_Component cls key props (VObject a) w = Return m w1 /\
    addChild m (VObject r) w1 = Return tt w2 /\
    m <> n /\
    w_heap w2 !! n = Some (OComponent cn') /\ _children cn' = VObject a /\
    w_heap w2 !! a = Some (OArray (l ++ [VObject r])) /\
    w_heap w2 !! r = Some (OComponent c') /\ _parent c' = VObject m.
Proof.
  intros Hn Hch Ha Hr Hcl Hnone.
  pose proof (new_Component_Return cls key props (VObject a) w) as Hrun.
  cbv beta iota zeta in Hrun.
  pose proof (alloc_fresh (w_heap w)) as Hfresh.
  set (m := fresh (dom (w_heap w))) in *.
  rewrite insert_insert_eq in Hrun.
  set (cm := {| _class := cls;
                _key := match key with
                        | VUndefined => VString EmptyString
                        | _ => key
                        end;
                _props := match props with None => ∅ | Some p => p end;
                _state := ∅; _children := VObject a;
                _parent := VUndefined |}) in *.
  set (w1 := {| w_heap := <[m := OComponent cm]> (w_heap w);
                w_trace := w_trace w |}) in *.
  assert (Hmn : m <> n) by (intros Heq; rewrite Heq in Hfresh; congruence).
  assert (Hma : m <> a) by (intros Heq; rewrite Heq in Hfresh; congruence).
  assert (Hmr : m <> r) by (intros Heq; rewrite Heq in Hfresh; congruence).
  assert (Hnone1 : forall el, el ∈ l -> ~ has_key (w_heap w1) (_key c) el).
  { intros el Hel [Ht Hk]. apply (Hnone el Hel). split; [ done | ].
    rewrite <- Hk. symmetry. apply key_of_alloc; [ done | ].
    rewrite Forall_forall in Hcl. by apply Hcl. }
  assert (Hadd := addChild_append w1 m cm a l r c).
  simpl in Hadd. rewrite lookup_insert_eq in Hadd.
  rewrite !lookup_insert_ne in Hadd by done.
  specialize (Hadd eq_refl eq_refl Ha Hr Hnone1).
  assert (Har : a <> r) by (by eapply component_not_array).
  assert (Han : a <> n) by (by eapply component_not_array).
  destruct (decide (r = n)) as [->|Hrn].
  - eexists m, w1, _, _, _. split; [ exact Hrun | ].
    split; [ exact Hadd | ]. simpl. split; [ done | ].
    rewrite lookup_insert_eq. split; [ done | ].
    assert (c = cn) by congruence. subst c.
    split; [ done | ].
    split; [ rewrite lookup_insert_ne by done; apply lookup_insert_eq | ].
    done.
  - eexists m, w1, _, cn, _. split; [ exact Hrun | ].
    split; [ exact Hadd | ]. simpl. split; [ done | ].
    split; [ by rewrite !lookup_insert_ne | ]. split; [ done | ].
    split; [ rewrite lookup_insert_ne by done; apply lookup_insert_eq | ].
    split; [ apply lookup_insert_eq | done ].
Qed.

Lemma family_closed :
  Forall (value_closed (w_heap family_world)) [VObject 2%nat; VObject 4%nat].
Proof. repeat constructor; by eexists. Qed.

Lemma family_no_key_c el :
  el ∈ [VObject 2%nat; VObject 4%nat] ->
  ~ has_key (w_heap family_world) (VString "c") el.
Proof.
  intros Hel [_ Hk].
  apply elem_of_cons in Hel as [->|Hel]; [ done | ].
  apply elem_of_cons in Hel as [->|Hel]; [ done | ].
  by apply elem_of_nil in Hel.
Qed.

Lemma constructor_shares_child_array_witness :
  exists m w1 w2 cn' c',
    new_Component view_class (VString "m") None (VObject 1%nat) family_world
      = Return m w1 /\
    addChild m (VObject 8%nat) w1 = Return tt w2 /\
    m <> 0%nat /\
    w_heap w2 !! 0%nat = Some (OComponent cn') /\ _children cn' = VObject 1%nat /\
    w_heap w2 !! 1%nat
      = Some (OArray ([VObject 2%nat; VObject 4%nat] ++ [VObject 8%nat])) /\
    w_heap w2 !! 8%nat = Some (OComponent c') /\ _parent c' = VObject m.
Proof.
  exact (constructor_shares_child_array family_world 0%nat
           (family_leaf "n" 1%nat VUndefined) 1%nat
           [VObject 2%nat; VObject 4%nat] 8%nat
           (family_leaf "c" 9%nat VUndefined) view_class (VString "m") None
           eq_refl eq_refl eq_refl eq_refl family_closed family_no_key_c).
Defined.

(** ** [addChild] *)





(** X4: [addChild] with a truthy value that is not an object (a non-empty
    string, a non-zero number, [true]), on a node whose children all have
    a defined key, appends the value to the child array and then throws a
    [TypeError] at [component.parent = this]; the value stays in the
    array. *)
Theorem addChild_primitive_is_pushed_then_throws w this n a l v :
  w_heap w !! this = Some (OComponent n) ->
  _children n = VObject a ->
  w_heap w !! a = Some (OArray l) ->
  truthy v = true ->
  typeof v <> "object" ->
  (forall el, el ∈ l -> truthy el = true ->
              key_of (w_heap w) el <> VUndefined) ->
  addChild this v w =
    Throw TypeError
      {| w_heap := <[a := OArray (l ++ [v])]> (w_heap w);
         w_trace := w_trace w |}.
Proof.
  intros Hn Hch Ha Ht Hty Hdef.
  rewrite (addChild_run w this n a l v Hn Hch Ha Ht).
  assert (Hkey : key_of (w_heap w) v = VUndefined) by (by destruct v).
  assert (Hidx : findIndex (same_key (w_heap w) v) l = -1).
  { apply findIndex_none. intros el Hel. apply same_key_false.
    intros Htel. rewrite Hkey. by apply Hdef. }
  rewrite Hidx. simpl Z.eqb. cbv iota. by destruct v.
Qed.

Lemma family_keys_defined el :
  el ∈ [VObject 2%nat; VObject 4%nat] -> truthy el = true ->
  key_of (w_heap family_world) el <> VUndefined.
Proof.
  intros Hel _.
  apply elem_of_cons in Hel as [->|Hel]; [ done | ].
  apply elem_of_cons in Hel as [->|Hel]; [ done | ].
  by apply elem_of_nil in Hel.
Qed.

Lemma addChild_primitive_is_pushed_then_throws_witness :
  addChild 0%nat (VString "x") family_world =
    Throw TypeError
      {| w_heap := <[1%nat := OArray ([VObject 2%nat; VObject 4%nat]
                                        ++ [VString "x"])]>
                     (w_heap family_world);
         w_trace := w_trace family_world |}.
Proof.
  refine (addChild_primitive_is_pushed_then_throws family_world 0%nat
            (family_leaf "n" 1%nat VUndefined) 1%nat
            [VObject 2%nat; VObject 4%nat] (VString "x")
            eq_refl eq_refl eq_refl eq_refl _ family_keys_defined).
  discriminate.
Defined.

(** ** [addChildren] *)

(** A call of [addChild] on a node leaves an array that is not the node's
    child array as it is. *)
Lemma addChild_keeps_other_array this c w w1 ac lc :
  w_heap w !! ac = Some (OArray lc) ->
  (forall n, w_heap w !! this = Some (OComponent n) ->
             _children n <> VObject ac) ->
  addChild this c w = Return tt w1 ->
  w_heap w1 !! ac = Some (OArray lc) /\
  (forall n, w_heap w1 !! this = Some (OComponent n) ->
             _children n <> VObject ac).
Proof.
  intros Hac Hother Hrun.
  destruct (truthy c) eqn:Ht;
    [ | rewrite addChild_falsy in Hrun by done; by simplify_eq ].
  destruct (children_array_cases this w)
    as [(n & a & l & Hn & Hch & Ha) | Hthrow].
  - assert (Hne : a <> ac).
    { intros ->. by apply (Hother n Hn). }
    rewrite (addChild_run w this n a l c Hn Hch Ha Ht) in Hrun.
    destruct (findIndex (same_key (w_heap w) c) l =? -1).
    + destruct c as [ | | | | |r]; try done.
      unfold assign_parent in Hrun.
      match type of Hrun with context [bind get_heap ?k ?w0] =>
        rewrite (bind_Return get_heap k w0 (w_heap w0) w0 eq_refl) in Hrun end.
      cbn [w_heap] in Hrun.
      destruct (<[a := OArray (l ++ [VObject r])]> (w_heap w) !! r)
        as [[cr|l0]|] eqn:Hr;
        rewrite ?set_component_Return in Hrun; unfold ret in Hrun;
        simplify_eq; simpl.
      * assert (Hra : r <> a) by (intros ->; by rewrite lookup_insert_eq in Hr).
        rewrite lookup_insert_ne in Hr by done.
        assert (Hrac : r <> ac) by (intros ->; congruence).
        split; [ by rewrite !lookup_insert_ne | ].
        intros n'. destruct (decide (r = this)) as [->|Hrt].
        -- rewrite lookup_insert_eq. intros ?; simplify_eq. simpl.
           by apply Hother.
        -- rewrite !lookup_insert_ne by (done || (intros ->; congruence)).
           apply Hother.
      * split; [ by rewrite lookup_insert_ne | ].
        intros n'. rewrite lookup_insert_ne by (intros ->; congruence).
        apply Hother.
      * split; [ by rewrite lookup_insert_ne | ].
        intros n'. rewrite lookup_insert_ne by (intros ->; congruence).
        apply Hother.
    + simplify_eq. simpl. split; [ by rewrite lookup_insert_ne | ].
      intros n'. rewrite lookup_insert_ne by (intros ->; congruence).
      apply Hother.
  - unfold addChild in Hrun. rewrite Ht in Hrun.
    change (negb true) with false in Hrun. cbv iota in Hrun.
    by rewrite (bind_Throw _ _ _ _ _ Hthrow) in Hrun.
Qed.

Lemma addChildren_loop_each fuel this ac lc (i : nat) w :
  w_heap w !! ac = Some (OArray lc) ->
  (forall n, w_heap w !! this = Some (OComponent n) ->
             _children n <> VObject ac) ->
  (length lc - i < fuel)%nat ->
  addChildren_loop fuel this (VObject ac) i w
    = addChild_each this (drop i lc) w.
Proof.
  revert i w. induction fuel as [|fuel IH]; intros i w Hac Hother Hfuel;
    [ lia | ].
  simpl addChildren_loop.
  rewrite (bind_Return _ _ _ _ _ (get_array_Return w ac lc Hac)). cbn [snd].
  destruct (lc !! i) as [CHILD|] eqn:Hi.
  - rewrite (drop_S _ _ _ Hi). simpl addChild_each. unfold bind.
    destruct (addChild this CHILD w) as [[] w1 | e w1] eqn:Hrun; [ | done ].
    destruct (addChild_keeps_other_array this CHILD w w1 ac lc Hac Hother Hrun)
      as [Hac1 Hother1].
    apply IH; [ done | done | ]. apply lookup_lt_Some in Hi. lia.
  - apply lookup_ge_None in Hi. by rewrite drop_ge.
Qed.

(** X5: over an array that is not the node's own child array,
    [addChildren(components)] does exactly what calling [addChild] on each
    element in turn does, an exception ending both at the same point. *)
Theorem addChildren_is_addChild_each fuel this ac lc w :
  w_heap w !! ac = Some (OArray lc) ->
  (forall n, w_heap w !! this = Some (OComponent n) ->
             _children n <> VObject ac) ->
  (length lc < fuel)%nat ->
  addChildren fuel this (VObject ac) w = addChild_each this lc w.
Proof.
  intros Hac Hother Hfuel. unfold addChildren.
  rewrite (addChildren_loop_each fuel this ac lc 0 w Hac Hother) by lia.
  by rewrite drop_0.
Qed.

Lemma shared_world_other_array n :
  w_heap shared_world !! 0%nat = Some (OComponent n) ->
  _children n <> VObject 10%nat.
Proof. intros Hn. vm_compute in Hn. by simplify_eq. Qed.

Lemma addChildren_is_addChild_each_witness :
  addChildren 3 0%nat (VObject 10%nat) shared_world
    = addChild_each 0%nat [VObject 8%nat; VObject 2%nat] shared_world.
Proof.
  refine (addChildren_is_addChild_each 3 0%nat 10%nat
            [VObject 8%nat; VObject 2%nat] shared_world
            eq_refl shared_world_other_array _).
  simpl. lia.
Defined.














(** ** [removeChild] *)

Lemma typeof_string v :
  String.eqb (typeof v) "string" = true -> exists s, v = VString s.
Proof. destruct v; try done. by eexists. Qed.

(** The worlds [removeChild] can leave. *)
Lemma removeChild_cases fuel this component w :
  final_world (removeChild fuel this component w) = w \/
  exists n a l (i : nat) el,
    w_heap w !! this = Some (OComponent n) /\
    _children n = VObject a /\
    w_heap w !! a = Some (OArray l) /\
    l !! i = Some el /\ truthy el = true /\
    key_of (w_heap w) el = VUndefined /\
    (forall (m : nat) y, (m < i)%nat -> l !! m = Some y -> truthy y = true ->
                         key_of (w_heap w) y <> VUndefined) /\
    final_world (removeChild fuel this component w) =
      {| w_heap := <[a := OArray (delete i l)]> (w_heap w);
         w_trace := w_trace w |}.
Proof.
  revert component. induction fuel as [|fuel IH]; intros component;
    [ by left | ].
  simpl removeChild.
  destruct (negb (truthy component)); [ by left | ].
  destruct (String.eqb (typeof component) "string") eqn:Hty.
  - apply typeof_string in Hty as [s ->].
    rewrite final_world_bind.
    destruct (children_array_cases this w)
      as [(n & a & l & Hn & Hch & Ha) | ->]; [ | by left ].
    rewrite (children_array_Return _ _ _ _ _ Hn Hch Ha).
    rewrite (bind_Return get_heap _ w (w_heap w) w eq_refl).
    cbv beta zeta. cbn [fst snd].
    destruct (findIndex (same_key (w_heap w) (VString s)) l =? -1) eqn:Hidx;
      [ by left | ].
    apply Z.eqb_neq in Hidx.
    destruct (findIndex_found _ _ Hidx) as (i & el & Hi & Hel & Hs & Hbefore).
    right. exists n, a, l, i, el.
    apply same_key_true in Hs as [Ht Hk].
    repeat (split; [ done | ]). split.
    + intros m y Hm Hy Hty Hky. specialize (Hbefore m y Hm Hy).
      apply same_key_false in Hbefore; done.
    + simpl. unfold splice1. by rewrite Hi, Nat2Z.id.
  - rewrite (bind_Return get_heap _ w (w_heap w) w eq_refl). apply IH.
Qed.

(** X9: whatever its argument, [removeChild] either leaves the world as it
    is or removes exactly one child, the first truthy one whose key is
    [undefined]; nothing else in the heap and nothing in the trace changes.
    A child with a defined key is never removed. *)
Theorem removeChild_effect fuel this component w :
  final_world (removeChild fuel this component w) = w \/
  exists n a l (i : nat) el,
    w_heap w !! this = Some (OComponent n) /\
    _children n = VObject a /\
    w_heap w !! a = Some (OArray l) /\
    l !! i = Some el /\ truthy el = true /\
    key_of (w_heap w) el = VUndefined /\
    (forall (m : nat) y, (m < i)%nat -> l !! m = Some y -> truthy y = true ->
                         key_of (w_heap w) y <> VUndefined) /\
    final_world (removeChild fuel this component w) =
      {| w_heap := <[a := OArray (delete i l)]> (w_heap w);
         w_trace := w_trace w |}.
Proof. apply removeChild_cases. Qed.

Lemma primitive_keys_check (h : heap) :
  forallb (fun ro => match snd ro with
                     | OComponent c => negb (String.eqb (typeof (_key c)) "object")
                                       || negb (truthy (_key c))
                     | OArray _ => true
                     end) (map_to_list h) = true ->
  primitive_keys h.
Proof.
  intros Hall r c Hr r' Hk. rewrite forallb_forall in Hall.
  apply elem_of_map_to_list, list_elem_of_In in Hr.
  specialize (Hall _ Hr). simpl in Hall. by rewrite Hk in Hall.
Qed.

Lemma family_primitive_keys : primitive_keys (w_heap family_world).
Proof. apply primitive_keys_check. vm_compute. reflexivity. Qed.

(** X10: when keys are primitive values, the re-dispatch of [removeChild]
    on [component.key] is at most three calls deep: with fuel 3 the model
    never runs out of fuel, and more fuel changes nothing. *)
Theorem removeChild_terminates fuel this component w :
  primitive_keys (w_heap w) ->
  out_of_fuel (removeChild 3 this component w) = false /\
  removeChild (3 + fuel) this component w = removeChild 3 this component w.
Proof.
  intros Hprim.
  destruct (removeChild_enough_fuel fuel this component w Hprim) as [Heq Hout].
  split; [ | done ].
  destruct (removeChild 3 this component w) as [u w'|[|] w']; try done.
  by destruct (Hout w').
Qed.

Lemma removeChild_terminates_witness :
  out_of_fuel (removeChild 3 0%nat (VObject 4%nat) family_world) = false /\
  removeChild (3 + 7) 0%nat (VObject 4%nat) family_world
    = removeChild 3 0%nat (VObject 4%nat) family_world.
Proof.
  exact (removeChild_terminates 7 0%nat (VObject 4%nat) family_world
           family_primitive_keys).
Defined.

(** ** [setState] and [forceUpdate] *)

Lemma with_state_same c : with_state c (_state c) = c.
Proof. by destruct c. Qed.

(** X11: [setState()] without a partial state ([undefined] or [null])
    still consults the gate and, if allowed, runs both hooks and one
    render, and calls the callback; the heap is left exactly as it was. *)
Theorem setState_without_partial_state w this c cb :
  w_heap w !! this = Some (OComponent c) ->
  render_defined (_class c) = true ->
  setState this None cb w =
    Return tt
      {| w_heap := w_heap w;
         w_trace := w_trace w ++
           gate_event this (_props c) (_state c) (_state c)
           :: (if shouldComponentUpdate (_class c) (receiver c) (_props c)
                    (_state c)
               then update_events this (_props c) (_state c) (_state c)
               else [])
           ++ callback_events this cb (_props c) (_state c) (_state c) |}.
Proof.
  intros Hc Hr.
  rewrite (setState_run w this c None cb Hc) by done.
  unfold commit, shallow_merge, object_assign.
  by rewrite with_state_same, insert_id.
Qed.

Lemma setState_without_partial_state_witness :
  let c := sample_node lazy_class {[ "x" := VNumber 1 ]} in
  let w := sample_world lazy_class {[ "x" := VNumber 1 ]} in
  setState 0%nat None (Some 7%nat) w =
    Return tt
      {| w_heap := w_heap w;
         w_trace := w_trace w ++
           gate_event 0%nat (_props c) (_state c) (_state c)
           :: (if shouldComponentUpdate (_class c) (receiver c) (_props c)
                    (_state c)
               then update_events 0%nat (_props c) (_state c) (_state c)
               else [])
           ++ callback_events 0%nat (Some 7%nat) (_props c) (_state c)
                (_state c) |}.
Proof.
  intros c w.
  exact (setState_without_partial_state w 0%nat c (Some 7%nat) eq_refl eq_refl).
Defined.



(** X13: on a class without [render], an update the gate allows throws a
    [TypeError] after the gate and [componentWillUpdate] have been invoked:
    the state is not committed, [componentDidUpdate] and the callback are
    not invoked; [forceUpdate()] throws and leaves the world as it is. *)
Theorem missing_render_throws w this c nextState cb :
  w_heap w !! this = Some (OComponent c) ->
  render_defined (_class c) = false ->
  shouldComponentUpdate (_class c) (receiver c) (_props c)
    (shallow_merge (_state c) nextState) = true ->
  setState this nextState cb w =
    Throw TypeError
      {| w_heap := w_heap w;
         w_trace := w_trace w ++
           [ gate_event this (_props c) (_state c)
               (shallow_merge (_state c) nextState);
             mkEvent this
               (ComponentWillUpdate (_props c)
                  (shallow_merge (_state c) nextState)) (_state c) ] |} /\
  forceUpdate this w = Throw TypeError w.
Proof.
  intros Hc Hr Hg. split; [ | by eapply call_render_Throw ].
  unfold shallow_merge in *. unfold setState.
  run_step Hc. cbv zeta. rewrite object_assign_empty.
  run_step Hc. cbv beta. rewrite Hg.
  unfold call_componentWillUpdate.
  erewrite bind_Throw; [ reflexivity | ].
  erewrite bind_Return; [ | eapply bind_run; run_prim Hc ].
  erewrite bind_Throw; [ | by eapply call_render_Throw ].
  unfold gate_event. simpl. by rewrite <- app_assoc.
Qed.

Lemma missing_render_throws_witness :
  let c := sample_node Component_class ∅ in
  let w := sample_world Component_class ∅ in
  setState 0%nat (Some {[ "x" := VNumber 1 ]}) (Some 7%nat) w =
    Throw TypeError
      {| w_heap := w_heap w;
         w_trace := w_trace w ++
           [ gate_event 0%nat (_props c) (_state c)
               (shallow_merge (_state c) (Some {[ "x" := VNumber 1 ]}));
             mkEvent 0%nat
               (ComponentWillUpdate (_props c)
                  (shallow_merge (_state c) (Some {[ "x" := VNumber 1 ]})))
               (_state c) ] |} /\
  forceUpdate 0%nat w = Throw TypeError w.
Proof.
  intros c w.
  exact (missing_render_throws w 0%nat c (Some {[ "x" := VNumber 1 ]})
           (Some 7%nat) eq_refl eq_refl eq_refl).
Defined.

(** X14: two [setState] calls in a row leave the heap that one call with
    the two partial states merged (the later over the earlier) leaves. *)
Theorem setState_twice_merges w this c p1 cb1 p2 cb2 cb :
  w_heap w !! this = Some (OComponent c) ->
  render_defined (_class c) = true ->
  exists w2 w',
    setState_seq this [ (Some p1, cb1); (Some p2, cb2) ] w = Return tt w2 /\
    setState this (Some (p2 ∪ p1)) cb w = Return tt w' /\
    w_heap w2 = w_heap w'.
Proof.
  intros Hc Hr. eexists _, _. split; [ | split ].
  - simpl setState_seq.
    rewrite (bind_Return _ _ _ _ _
               (setState_run w this c (Some p1) cb1 Hc (fun _ => Hr))).
    erewrite bind_Return;
      [ reflexivity
      | apply (setState_run _ this (with_state c (shallow_merge (_state c) (Some p1))));
        [ apply lookup_insert_eq | done ] ].
  - by apply (setState_run w this c (Some (p2 ∪ p1)) cb Hc).
  - simpl. rewrite insert_insert_eq. unfold shallow_merge, object_assign.
    simpl. by rewrite (assoc_L (∪)).
Qed.

Lemma setState_twice_merges_witness :
  exists w2 w',
    setState_seq 0%nat
      [ (Some {[ "x" := VNumber 1 ]}, None);
        (Some {[ "x" := VNumber 2; "y" := VNumber 3 ]}, Some 7%nat) ]
      (sample_world lazy_class ∅) = Return tt w2 /\
    setState 0%nat
      (Some ({[ "x" := VNumber 2; "y" := VNumber 3 ]} ∪ {[ "x" := VNumber 1 ]}))
      None (sample_world lazy_class ∅) = Return tt w' /\
    w_heap w2 = w_heap w'.
Proof.
  exact (setState_twice_merges (sample_world lazy_class ∅) 0%nat
           (sample_node lazy_class ∅) {[ "x" := VNumber 1 ]} None
           {[ "x" := VNumber 2; "y" := VNumber 3 ]} (Some 7%nat) None
           eq_refl eq_refl).
Defined.

Lemma count_calls_app p tr1 tr2 :
  count_calls p (tr1 ++ tr2) = (count_calls p tr1 + count_calls p tr2)%nat.
Proof. unfold count_calls. by rewrite List.filter_app, length_app. Qed.

(** What one call of [setState] adds to the trace. *)
Lemma setState_events_counts this props PREV NEW (g : bool) cb :
  let evs := gate_event this props PREV NEW
             :: (if g then update_events this props PREV NEW else [])
             ++ callback_events this cb props PREV NEW in
  count_calls is_gate_call evs = 1%nat /\
  count_calls is_will_call evs = (if g then 1 else 0)%nat /\
  count_calls is_render_call evs = (if g then 1 else 0)%nat /\
  count_calls is_did_call evs = (if g then 1 else 0)%nat /\
  Forall (fun e => ev_this e = this /\ is_forced_render (ev_call e) = true) evs.
Proof. destruct g, cb; repeat split; repeat constructor. Qed.

(** X15: a sequence of [n] calls of [setState] on a node invokes the gate
    exactly [n] times and [render] at most [n] times, always forced and
    always with as many [componentWillUpdate] and [componentDidUpdate]
    invocations as renders, all on that node; when the gate always answers
    [true] (the default), [render] is invoked exactly [n] times. *)
Theorem setState_seq_invocations w this c calls :
  w_heap w !! this = Some (OComponent c) ->
  render_defined (_class c) = true ->
  exists w' evs,
    setState_seq this calls w = Return tt w' /\
    w_trace w' = w_trace w ++ evs /\
    count_calls is_gate_call evs = length calls /\
    count_calls is_will_call evs = count_calls is_render_call evs /\
    count_calls is_did_call evs = count_calls is_render_call evs /\
    (count_calls is_render_call evs <= length calls)%nat /\
    Forall (fun e => ev_this e = this /\ is_forced_render (ev_call e) = true)
      evs /\
    ((forall r p s, shouldComponentUpdate (_class c) r p s = true) ->
     count_calls is_render_call evs = length calls).
Proof.
  intros Hc Hr. revert w c Hc Hr.
  induction calls as [|[partial cb] rest IH]; intros w c Hc Hr.
  - exists w, []. rewrite app_nil_r. repeat split; done.
  - simpl setState_seq.
    erewrite bind_Return by (apply setState_run; [ exact Hc | done ]).
    set (NEW := shallow_merge (_state c) partial).
    set (g := shouldComponentUpdate (_class c) (receiver c) (_props c) NEW).
    destruct (setState_events_counts this (_props c) (_state c) NEW g cb)
      as (Hg1 & Hw1 & Hr1 & Hd1 & Hall1).
    cbv zeta in Hg1, Hw1, Hr1, Hd1, Hall1.
    match goal with |- context [commit w this c NEW ?evs] =>
      set (evs1 := evs) in * end.
    destruct (IH (commit w this c NEW evs1) (with_state c NEW))
      as (w' & evs & Hrun & Htr & Hg & Hw & Hd & Hle & Hall & Hdef).
    + apply lookup_insert_eq.
    + exact Hr.
    + exists w', (evs1 ++ evs). split; [ exact Hrun | ].
      split; [ rewrite Htr; unfold commit; cbn [w_trace];
               by rewrite <- app_assoc | ].
      rewrite !count_calls_app, Hg1, Hw1, Hr1, Hd1, Hg, Hw, Hd. simpl length.
      split; [ done | ]. split; [ done | ]. split; [ done | ].
      split; [ destruct g; lia | ].
      split; [ by apply Forall_app | ].
      intros Htrue. rewrite (Hdef Htrue). unfold g. by rewrite Htrue.
Qed.

Lemma setState_seq_invocations_witness :
  exists w' evs,
    setState_seq 0%nat
      [ (Some {[ "x" := VNumber 1 ]}, None);
        (Some {[ "y" := VNumber 2 ]}, None) ]
      (sample_world view_class ∅) = Return tt w' /\
    w_trace w' = w_trace (sample_world view_class ∅) ++ evs /\
    count_calls is_gate_call evs = 2%nat /\
    count_calls is_will_call evs = count_calls is_render_call evs /\
    count_calls is_did_call evs = count_calls is_render_call evs /\
    (count_calls is_render_call evs <= 2)%nat /\
    Forall (fun e => ev_this e = 0%nat /\ is_forced_render (ev_call e) = true)
      evs /\
    ((forall r p s, shouldComponentUpdate view_class r p s = true) ->
     count_calls is_render_call evs = 2%nat).
Proof.
  exact (setState_seq_invocations (sample_world view_class ∅) 0%nat
           (sample_node view_class ∅)
           [ (Some {[ "x" := VNumber 1 ]}, None);
             (Some {[ "y" := VNumber 2 ]}, None) ] eq_refl eq_refl).
Defined.

(** The heap [setState] leaves, on every path. *)
Lemma setState_heap_cases this nextState cb w :
  w_heap (final_world (setState this nextState cb w)) = w_heap w \/
  exists c,
    w_heap w !! this = Some (OComponent c) /\
    w_heap (final_world (setState this nextState cb w)) =
      <[this := OComponent (with_state c (shallow_merge (_state c) nextState))]>
        (w_heap w).
Proof.
  destruct (get_component_cases this w) as [[c Hc] | Hthrow].
  - destruct (shouldComponentUpdate (_class c) (receiver c) (_props c)
                (shallow_merge (_state c) nextState)) eqn:Hg;
      [ destruct (render_defined (_class c)) eqn:Hr | ].
    + right. exists c. split; [ done | ].
      by rewrite (setState_run w this c nextState cb Hc).
    + left.
      destruct (setState_without_render w this c nextState cb Hc Hg Hr)
        as (w' & -> & Hheap).
      done.
    + right. exists c. split; [ done | ].
      by rewrite (setState_run w this c nextState cb Hc) by (rewrite Hg; done).
  - left. unfold setState.
    by rewrite (bind_Throw _ _ _ _ _ (read_Throw _state _ _ Hthrow)).
Qed.

(** X16: whatever the receiver, the arguments and the outcome (update,
    veto, missing [render], a receiver that is no component), [setState]
    changes nothing in the heap except the receiver's state, which becomes
    the merge or stays; [forceUpdate] changes nothing in the heap. *)
Theorem updates_only_write_state this nextState cb w :
  (w_heap (final_world (setState this nextState cb w)) = w_heap w \/
   exists c,
     w_heap w !! this = Some (OComponent c) /\
     w_heap (final_world (setState this nextState cb w)) =
       <[this := OComponent (with_state c (shallow_merge (_state c) nextState))]>
         (w_heap w)) /\
  w_heap (final_world (forceUpdate this w)) = w_heap w.
Proof. split; [ apply setState_heap_cases | apply forceUpdate_heap ]. Qed.

(** ** What no operation does *)

Section HeapStep.

Variable P : Component -> Component -> Prop.
Hypothesis P_refl : forall c, P c c.
Hypothesis P_trans : forall c1 c2 c3, P c1 c2 -> P c2 c3 -> P c1 c3.








Hypothesis P_parent : forall c p, P c (with_parent c p).
Hypothesis P_children : forall c ch, P c (with_children c ch).







Hypothesis P_state : forall c s, P c (with_state c s).




End HeapStep.







(** ** Composition *)

(** X19: after [removeChildren()], [addChild(c)] for a component [c] makes
    [c] the only child, in the new array, with the node as parent, whatever
    the children were before. *)
Theorem addChild_after_removeChildren w this n r c :
  w_heap w !! this = Some (OComponent n) ->
  w_heap w !! r = Some (OComponent c) ->
  exists w1 w2 a' n2 c2,
    removeChildren this w = Return tt w1 /\
    addChild this (VObject r) w1 = Return tt w2 /\
    w_heap w !! a' = None /\
    w_heap w2 !! this = Some (OComponent n2) /\ _children n2 = VObject a' /\
    w_heap w2 !! a' = Some (OArray [VObject r]) /\
    w_heap w2 !! r = Some (OComponent c2) /\ _parent c2 = VObject this /\
    w_trace w2 = w_trace w.
Proof.
  intros Hn Hr. pose proof (alloc_fresh (w_heap w)) as Hfresh.
  set (a' := fresh (dom (w_heap w))) in *.
  assert (Hat : a' <> this) by (intros Heq; rewrite Heq in Hfresh; congruence).
  assert (Har : a' <> r) by (intros Heq; rewrite Heq in Hfresh; congruence).
  set (n1 := with_children n (VObject a')).
  set (w1 := {| w_heap := <[this := OComponent n1]>
                            (<[a' := OArray []]> (w_heap w));
                w_trace := w_trace w |}).
  assert (Hrem : removeChildren this w = Return tt w1).
  { unfold removeChildren.
    rewrite (bind_Return (alloc (OArray [])) _ w a'
               {| w_heap := <[a' := OArray []]> (w_heap w);
                  w_trace := w_trace w |} eq_refl).
    assert (Hn' : <[a' := OArray []]> (w_heap w) !! this = Some (OComponent n))
      by (by rewrite lookup_insert_ne).
    by rewrite (bind_Return _ _ _ _ _
                  (get_component_Return this
                     {| w_heap := <[a' := OArray []]> (w_heap w);
                        w_trace := w_trace w |} n Hn')). }
  assert (Hn1 : w_heap w1 !! this = Some (OComponent n1))
    by apply lookup_insert_eq.
  assert (Ha1 : w_heap w1 !! a' = Some (OArray [])).
  { simpl. rewrite lookup_insert_ne by done. apply lookup_insert_eq. }
  destruct (decide (r = this)) as [->|Hrt].
  - assert (c = n) by congruence. subst c.
    pose proof (addChild_append w1 this n1 a' [] this n1 Hn1 eq_refl Ha1 Hn1)
      as Hadd.
    eexists w1, _, a', _, _. split; [ exact Hrem | ].
    split; [ apply Hadd; intros el Hel; by apply elem_of_nil in Hel | ].
    simpl. split; [ done | ].
    rewrite lookup_insert_eq. split; [ done | ]. split; [ done | ].
    split; [ rewrite lookup_insert_ne by done; apply lookup_insert_eq | ].
    done.
  - assert (Hr1 : w_heap w1 !! r = Some (OComponent c)).
    { simpl. by rewrite !lookup_insert_ne. }
    pose proof (addChild_append w1 this n1 a' [] r c Hn1 eq_refl Ha1 Hr1)
      as Hadd.
    eexists w1, _, a', n1, _. split; [ exact Hrem | ].
    split; [ apply Hadd; intros el Hel; by apply elem_of_nil in Hel | ].
    simpl. split; [ done | ].
    split; [ rewrite !lookup_insert_ne by done; apply lookup_insert_eq | ].
    split; [ done | ].
    split; [ rewrite lookup_insert_ne by done; apply lookup_insert_eq | ].
    split; [ apply lookup_insert_eq | done ].
Qed.

Lemma addChild_after_removeChildren_witness :
  exists w1 w2 a' n2 c2,
    removeChildren 0%nat family_world = Return tt w1 /\
    addChild 0%nat (VObject 8%nat) w1 = Return tt w2 /\
    w_heap family_world !! a' = None /\
    w_heap w2 !! 0%nat = Some (OComponent n2) /\ _children n2 = VObject a' /\
    w_heap w2 !! a' = Some (OArray [VObject 8%nat]) /\
    w_heap w2 !! 8%nat = Some (OComponent c2) /\ _parent c2 = VObject 0%nat /\
    w_trace w2 = w_trace family_world.
Proof.
  exact (addChild_after_removeChildren family_world 0%nat
           (family_leaf "n" 1%nat VUndefined) 8%nat
           (family_leaf "c" 9%nat VUndefined) eq_refl eq_refl).
Defined.
